(** * Phonetic encoders of helper-js: Soundex and Metaphone

    A shallow embedding of [src/utility/string/metaphone.js] and
    [src/utility/string/soundex.js], and the properties of the two encoders.

    JavaScript strings are sequences of UTF-16 code units; a code unit is an
    integer and a string is a list of them.  Indices, lengths and the
    [maxPhonemes] argument are JavaScript numbers that only ever hold
    integers here, so they are modelled in [Z].

    The built-in [String.prototype.toUpperCase] belongs to the host, not to
    the repository: the encoders take it as a parameter, so that the general
    theorems hold for every behaviour of the built-in (with the assumptions
    they need stated as hypotheses).  [toUpperCase_ascii] is its behaviour on
    ASCII text, used for the concrete words. *)

From Stdlib Require Import String Ascii ZArith List Bool Lia.
Import ListNotations.

#[local] Open Scope Z_scope.

(** ** JavaScript strings and loops *)

Definition jschar := Z.
Definition jsstring := list jschar.

(** [s.length] *)
Definition len (s : jsstring) : Z := Z.of_nat (length s).

(** A string literal of the source. *)
Definition lit (s : string) : jsstring :=
  map (fun a => Z.of_nat (nat_of_ascii a)) (list_ascii_of_string s).

(** [a === b] on two strings. *)
Fixpoint str_eqb (a b : jsstring) : bool :=
  match a, b with
  | [], [] => true
  | x :: a', y :: b' => (x =? y) && str_eqb a' b'
  | _, _ => false
  end.

#[local] Infix "===" := str_eqb (at level 70, no associativity).

(** [s[i]]: a string of one code unit, or [undefined] ([None]) when [i] is
    not an index of [s] (negative indices included). *)
Definition charAt (s : jsstring) (i : Z) : option jsstring :=
  if i <? 0 then None
  else match nth_error s (Z.to_nat i) with
       | Some c => Some [c]
       | None => None
       end.

(** The character class [[A-Z]]. *)
Definition isAZ (c : jschar) : bool := (65 <=? c) && (c <=? 90).

(** A value that is a string or [undefined], converted to a string (as a
    regular expression's [test] and a property access do with their
    argument). *)
Definition to_string (x : option jsstring) : jsstring :=
  match x with
  | Some s => s
  | None => lit "undefined"
  end.

(** [/[A-Z]/.test(x)] *)
Definition test_AZ (x : option jsstring) : bool := existsb isAZ (to_string x).

(** Truthiness of a number. *)
Definition truthy (n : Z) : bool := negb (n =? 0).

(** [while (cond) body], run for at most [fuel] iterations: [None] when the
    fuel is used up before the condition fails. *)
Fixpoint while_ {S : Type} (fuel : nat) (cond : S -> bool) (body : S -> S)
    (s : S) : option S :=
  if cond s then
    match fuel with
    | O => None
    | Datatypes.S n => while_ n cond body (body s)
    end
  else Some s.

(** The host's [toUpperCase] on ASCII text: a-z become A-Z, every other code
    unit is kept. *)
Definition toUpperCase_ascii (s : jsstring) : jsstring :=
  map (fun c => if (97 <=? c) && (c <=? 122) then c - 32 else c) s.

Definition is_ascii (c : jschar) : bool := (0 <=? c) && (c <? 128).

(** ** metaphone.js *)

Module Metaphone.

(** Special encodings *)
Definition SH : jsstring := lit "X".
Definition TH : jsstring := lit "0".

(** The string ['\0']. *)
Definition NUL : jsstring := [0].

(** Character encoding array *)
Definition codes : list Z :=
  [1; 16; 4; 16; 9; 2; 4; 16; 9; 2; 0; 2; 2; 2; 1; 4; 0; 2; 4; 4; 1; 0; 0; 0; 8; 0].

(** [c.charCodeAt(0) - 65] is NaN for the empty string, and every comparison
    with NaN is false. *)
Definition encode (c : jsstring) : Z :=
  match c with
  | [] => 0
  | u :: _ =>
      let charCode := u - 65 in
      if (0 <=? charCode) && (charCode <? 26)
      then nth (Z.to_nat charCode) codes 0
      else 0
  end.

Definition isVowel (c : jsstring) : Z := Z.land (encode c) 1.
Definition noChange (c : jsstring) : Z := Z.land (encode c) 2.
Definition affectH (c : jsstring) : Z := Z.land (encode c) 4.
Definition makeSoft (c : jsstring) : Z := Z.land (encode c) 8.
Definition noGhToF (c : jsstring) : Z := Z.land (encode c) 16.

(** The state the function mutates: the phoned word and the cursor. *)
Record state : Type := mkState { result : jsstring; w_idx : Z }.

(** [w_idx += n] *)
Definition advance (n : Z) (s : state) : state :=
  {| result := result s; w_idx := w_idx s + n |}.

(** The closure [phonize]: appends while the buffer has room. *)
Definition phonize (maxBufferLen : Z) (c : jsstring) (s : state) : state :=
  if len (result s) <? maxBufferLen
  then {| result := result s ++ c; w_idx := w_idx s |}
  else s.

#[local] Notation "s |> f" := (f s) (at level 65, left associativity, only parsing).

Section Encoder.

Variable toUpperCase : jsstring -> jsstring.

(** [typeof c === 'string' ? c.toUpperCase() : ''] *)
Definition convertRaw (c : option jsstring) : jsstring :=
  match c with
  | Some s => toUpperCase s
  | None => []
  end.

Definition lookAhead (word : jsstring) (w_idx how_far : Z) : jsstring :=
  let idx := w_idx + how_far in
  if idx <? len word then convertRaw (charAt word idx) else NUL.

(** The parameters fixed during one call: the upper-cased [word], the length
    [wordLen] of the word as it was given, [maxPhonemes] and [maxBufferLen]. *)
Variable word : jsstring.
Variable wordLen maxPhonemes maxBufferLen : Z.

(** Lines 84-86: skip to the first letter. *)
Definition skip_cond (s : state) : bool :=
  negb (test_AZ (charAt word (w_idx s))) && (w_idx s <? wordLen).

(** Lines 89-134: the special cases of the first letter. *)
Definition first_letter (s : state) : state :=
  let currLetter := convertRaw (charAt word (w_idx s)) in
  if currLetter === lit "A" then
    if convertRaw (charAt word (w_idx s + 1)) === lit "E"
    then s |> phonize maxBufferLen (lit "E") |> advance 2
    else s |> phonize maxBufferLen (lit "A") |> advance 1
  else if (currLetter === lit "G") || (currLetter === lit "K")
          || (currLetter === lit "P") then
    if convertRaw (charAt word (w_idx s + 1)) === lit "N"
    then s |> phonize maxBufferLen (lit "N") |> advance 2
    else s
  else if currLetter === lit "W" then
    let nextLetter := convertRaw (charAt word (w_idx s + 1)) in
    if nextLetter === lit "R"
    then s |> phonize maxBufferLen (lit "R") |> advance 2
    else if (nextLetter === lit "H") || truthy (isVowel nextLetter)
    then s |> phonize maxBufferLen (lit "W") |> advance 2
    else s
  else if currLetter === lit "X" then
    s |> phonize maxBufferLen (lit "S") |> advance 1
  else if (currLetter === lit "E") || (currLetter === lit "I")
          || (currLetter === lit "O") || (currLetter === lit "U") then
    s |> phonize maxBufferLen currLetter |> advance 1
  else s.

(** Line 137: the condition of the main loop. *)
Definition loop_cond (s : state) : bool :=
  (w_idx s <? wordLen)
  && ((maxPhonemes =? 0) || (len (result s) <? maxPhonemes)).

(** Lines 151-221: the switch on the current letter. *)
Definition process_letter (currLetter prevLetter nextLetter afterNextLetter : jsstring)
    (s : state) : state :=
  if currLetter === lit "B" then
    if negb (prevLetter === lit "M") then s |> phonize maxBufferLen (lit "B") else s
  else if currLetter === lit "C" then
    if truthy (makeSoft nextLetter) then
      if (nextLetter === lit "I") && (afterNextLetter === lit "A")
      then s |> phonize maxBufferLen SH
      else if negb (prevLetter === lit "S")
      then s |> phonize maxBufferLen (lit "S")
      else s
    else if nextLetter === lit "H" then
      (if negb (truthy (noGhToF prevLetter)) || (afterNextLetter === lit "R")
       then s |> phonize maxBufferLen (lit "K")
       else s |> phonize maxBufferLen SH)
      |> advance 1
    else s |> phonize maxBufferLen (lit "K")
  else if currLetter === lit "D" then
    if (nextLetter === lit "G") && truthy (makeSoft afterNextLetter)
    then s |> phonize maxBufferLen (lit "J") |> advance 1
    else s |> phonize maxBufferLen (lit "T")
  else if currLetter === lit "G" then
    if (nextLetter === lit "H")
       && negb (truthy (noGhToF (lookAhead word (w_idx s) (-3))))
    then s |> phonize maxBufferLen (lit "F") |> advance 1
    else if negb (nextLetter === lit "N") && truthy (makeSoft nextLetter)
    then s |> phonize maxBufferLen (lit "J")
    else s |> phonize maxBufferLen (lit "K")
  else if currLetter === lit "H" then
    if truthy (isVowel nextLetter) && negb (truthy (affectH prevLetter))
    then s |> phonize maxBufferLen (lit "H")
    else s
  else if currLetter === lit "K" then
    if negb (prevLetter === lit "C") then s |> phonize maxBufferLen (lit "K") else s
  else if currLetter === lit "P" then
    if nextLetter === lit "H"
    then s |> phonize maxBufferLen (lit "F")
    else s |> phonize maxBufferLen (lit "P")
  else if currLetter === lit "S" then
    if (nextLetter === lit "H")
       || ((nextLetter === lit "I")
           && ((afterNextLetter === lit "A") || (afterNextLetter === lit "O")))
    then s |> phonize maxBufferLen SH |> advance 1
    else s |> phonize maxBufferLen (lit "S")
  else if currLetter === lit "T" then
    if nextLetter === lit "H"
    then s |> phonize maxBufferLen TH |> advance 1
    else if (nextLetter === lit "I")
            && ((afterNextLetter === lit "A") || (afterNextLetter === lit "O"))
    then s |> phonize maxBufferLen SH
    else s |> phonize maxBufferLen (lit "T")
  else if currLetter === lit "W" then
    if truthy (isVowel nextLetter) then s |> phonize maxBufferLen (lit "W") else s
  else if currLetter === lit "X" then
    s |> phonize maxBufferLen (lit "K") |> phonize maxBufferLen (lit "S")
  else if currLetter === lit "Y" then
    if truthy (isVowel nextLetter) then s |> phonize maxBufferLen (lit "Y") else s
  else if currLetter === lit "Z" then
    s |> phonize maxBufferLen (lit "S")
  else
    if truthy (noChange currLetter) then s |> phonize maxBufferLen currLetter else s.

(** Lines 138-222: one iteration of the main loop. *)
Definition loop_body (s : state) : state :=
  let currLetter := convertRaw (charAt word (w_idx s)) in
  if negb (test_AZ (Some currLetter)) then s |> advance 1
  else
    let prevLetter :=
      if 0 <? w_idx s then convertRaw (charAt word (w_idx s - 1)) else NUL in
    let nextLetter := convertRaw (charAt word (w_idx s + 1)) in
    let afterNextLetter := lookAhead word (w_idx s) 2 in
    s |> process_letter currLetter prevLetter nextLetter afterNextLetter
      |> advance 1.

End Encoder.

(** The branches of the switch that consume a second letter, by their
    extra [w_idx++]: CH (line 162), DG before a soft-making letter
    (line 170), GH when the letter three positions back is not in the
    no-GH-to-F class (line 176), SH and SI before A or O (line 194), and TH
    (line 200).  [lookBack] is [lookAhead(word, w_idx, -3)]. *)
Definition digraph_consumed (currLetter nextLetter afterNextLetter lookBack : jsstring)
    : bool :=
  ((currLetter === lit "C")
   && (negb (truthy (makeSoft nextLetter)) && (nextLetter === lit "H")))
  || ((currLetter === lit "D")
      && ((nextLetter === lit "G") && truthy (makeSoft afterNextLetter)))
  || ((currLetter === lit "G")
      && ((nextLetter === lit "H") && negb (truthy (noGhToF lookBack))))
  || ((currLetter === lit "S")
      && ((nextLetter === lit "H")
          || ((nextLetter === lit "I")
              && ((afterNextLetter === lit "A") || (afterNextLetter === lit "O")))))
  || ((currLetter === lit "T") && (nextLetter === lit "H")).

(** The distance of the cursor from the end of the word, the measure under
    which both loops terminate. *)
Definition distance (wordLen : Z) (s : state) : nat := Z.to_nat (wordLen - w_idx s).

(** [metaphone(word, maxPhonemes)], each of its two loops run for at most
    [fuel] iterations. *)
Definition metaphone_fuel (toUpperCase : jsstring -> jsstring) (fuel : nat)
    (word0 : jsstring) (maxPhonemes : Z) : option jsstring :=
  let wordLen := len word0 in
  let word := toUpperCase word0 in
  let maxBufferLen := if 0 <? maxPhonemes then maxPhonemes else wordLen in
  match while_ fuel (skip_cond word wordLen) (advance 1)
          {| result := []; w_idx := 0 |} with
  | None => None
  | Some s0 =>
      if wordLen <=? w_idx s0 then Some (result s0)
      else
        match while_ fuel (loop_cond wordLen maxPhonemes)
                (loop_body toUpperCase word maxBufferLen)
                (first_letter toUpperCase word maxBufferLen s0) with
        | None => None
        | Some s => Some (result s)
        end
  end.

(** [metaphone(word, maxPhonemes)]: the length of the word is fuel enough
    for both loops, as each iteration moves the cursor forward. *)
Definition metaphone (toUpperCase : jsstring -> jsstring) (word0 : jsstring)
    (maxPhonemes : Z) : jsstring :=
  match metaphone_fuel toUpperCase (length word0) word0 maxPhonemes with
  | Some r => r
  | None => []
  end.

End Metaphone.

(** ** soundex.js *)

Module Soundex.

(** The values held by [soundexTable] and by [lastCode]: the number [0] or a
    string. *)
Inductive value : Type :=
| Zero
| Str (s : jsstring).

Definition value_truthy (v : option value) : bool :=
  match v with
  | Some (Str (_ :: _)) => true
  | _ => false
  end.

(** [a !== b], for [a] possibly [undefined] *)
Definition strict_neq (a : option value) (b : value) : bool :=
  match a, b with
  | Some Zero, Zero => false
  | Some (Str x), Str y => negb (x === y)
  | _, _ => true
  end.

(** The Soundex table, mapping letters to their Soundex codes *)
Definition soundexTable : list (jsstring * value) :=
  [ (lit "A", Zero); (lit "B", Str (lit "1")); (lit "C", Str (lit "2"));
    (lit "D", Str (lit "3")); (lit "E", Zero); (lit "F", Str (lit "1"));
    (lit "G", Str (lit "2")); (lit "H", Zero); (lit "I", Zero);
    (lit "J", Str (lit "2")); (lit "K", Str (lit "2")); (lit "L", Str (lit "4"));
    (lit "M", Str (lit "5")); (lit "N", Str (lit "5")); (lit "O", Zero);
    (lit "P", Str (lit "1")); (lit "Q", Str (lit "2")); (lit "R", Str (lit "6"));
    (lit "S", Str (lit "2")); (lit "T", Str (lit "3")); (lit "U", Zero);
    (lit "V", Str (lit "1")); (lit "W", Zero); (lit "X", Str (lit "2"));
    (lit "Y", Zero); (lit "Z", Str (lit "2")) ].

(** [table[key]]: [None] is [undefined].  The keys looked up are strings of
    one character, or "undefined"; no inherited property of an object has
    such a name, so the own properties decide. *)
Fixpoint get (table : list (jsstring * value)) (key : jsstring) : option value :=
  match table with
  | [] => None
  | (k, v) :: rest => if k === key then Some v else get rest key
  end.

(** The state of the encoding loop. *)
Record lstate : Type :=
  mkL { i : Z; soundexCode : jsstring; lastCode : value }.

(** Lines 61-69: what the loop does with [char = str[i]], on the two
    variables it updates. *)
Definition encode_letter (char : option jsstring) (soundexCode : jsstring)
    (lastCode : value) : jsstring * value :=
  let code := get soundexTable (to_string char) in
  if value_truthy code && strict_neq code lastCode then
    match code with
    | Some (Str d) => (soundexCode ++ d, Str d)
    | _ => (soundexCode, lastCode)
    end
  else (soundexCode, lastCode).

Section Loop.

(** The cleaned-up string. *)
Variable str : jsstring.

(** Line 60: [i < str.length && soundexCode.length < 4] *)
Definition loop_cond (st : lstate) : bool :=
  (i st <? len str) && (len (soundexCode st) <? 4).

(** Lines 61-69 and the [i++] of the loop. *)
Definition loop_body (st : lstate) : lstate :=
  let (code', last') := encode_letter (charAt str (i st)) (soundexCode st) (lastCode st) in
  {| i := i st + 1; soundexCode := code'; lastCode := last' |}.

End Loop.

(** Lines 56-57: the first letter and its code, [soundexTable[first] || 0]. *)
Definition seed (first : jsstring) : value :=
  let v := get soundexTable first in
  match v with
  | Some x => if value_truthy v then x else Zero
  | None => Zero
  end.

Definition init (first : jschar) : lstate :=
  {| i := 1; soundexCode := [first]; lastCode := seed [first] |}.

(** Lines 73-75: pad with zeros. *)
Definition pad_cond (soundexCode : jsstring) : bool := len soundexCode <? 4.
Definition pad_body (soundexCode : jsstring) : jsstring := soundexCode ++ lit "0".

(** Line 48: [str.toUpperCase().replace(/[^A-Z]/g, '')] *)
Definition normalize (toUpperCase : jsstring -> jsstring) (str : jsstring) : jsstring :=
  filter isAZ (toUpperCase str).

(** Lines 56-70 on a cleaned-up, non-empty string [first :: _]: the code
    before it is padded. *)
Definition encode_fuel (fuel : nat) (str : jsstring) (first : jschar) : option lstate :=
  while_ fuel (loop_cond str) (loop_body str) (init first).

(** Lines 51-78 on the cleaned-up string. *)
Definition soundex_clean_fuel (fuel : nat) (str : jsstring) : option jsstring :=
  match str with
  | [] => Some []
  | first :: _ =>
      match encode_fuel fuel str first with
      | None => None
      | Some st => while_ fuel pad_cond pad_body (soundexCode st)
      end
  end.

(** The code as it is before line 73 pads it. *)
Definition soundex_unpadded (str : jsstring) : jsstring :=
  match str with
  | [] => []
  | first :: _ =>
      match encode_fuel (length str) str first with
      | Some st => soundexCode st
      | None => []
      end
  end.

(** The encoding loop as a traversal of the letters that remain. *)
Fixpoint scan (letters : list jschar) (soundexCode : jsstring) (lastCode : value)
    : jsstring * value :=
  match letters with
  | [] => (soundexCode, lastCode)
  | c :: letters' =>
      if len soundexCode <? 4 then
        let (code', last') := encode_letter (Some [c]) soundexCode lastCode in
        scan letters' code' last'
      else (soundexCode, lastCode)
  end.

Definition soundex_clean (str : jsstring) : jsstring :=
  match soundex_clean_fuel (length str + 3) str with
  | Some r => r
  | None => []
  end.

(** [soundex(str)] *)
Definition soundex (toUpperCase : jsstring -> jsstring) (str : jsstring) : jsstring :=
  soundex_clean (normalize toUpperCase str).

End Soundex.

(** ** memory-storage.js *)

Module MemoryStorage.

(** The own properties of the object [this._storage], for keys and values
    that are strings.  An assignment [o[key] = value] to an object made by
    [{}] sets an own property, except for the key "__proto__", which goes to
    the accessor inherited from [Object.prototype]: that one ignores a value
    that is a string and adds no property. *)
Definition storage := list (jsstring * jsstring).

(** [Object.prototype.hasOwnProperty.call(o, key) ? o[key] : undefined] *)
Fixpoint own (o : storage) (key : jsstring) : option jsstring :=
  match o with
  | [] => None
  | (k, v) :: o' => if k === key then Some v else own o' key
  end.

(** [o[key] = value] on own properties. *)
Fixpoint assign (o : storage) (key value : jsstring) : storage :=
  match o with
  | [] => [(key, value)]
  | (k, v) :: o' =>
      if k === key then (k, value) :: o' else (k, v) :: assign o' key value
  end.

(** [delete o[key]] *)
Fixpoint delete (o : storage) (key : jsstring) : storage :=
  match o with
  | [] => []
  | (k, v) :: o' => if k === key then delete o' key else (k, v) :: delete o' key
  end.

(** The constructor: [this._storage = {}]. *)
Definition new : storage := [].

(** [setItem(key, value)]: the value returned and the storage left. *)
Definition setItem (key value : jsstring) (o : storage) : jsstring * storage :=
  (value, if key === lit "__proto__" then o else assign o key value).

(** [getItem(key)]: [None] is [null]. *)
Definition getItem (key : jsstring) (o : storage) : option jsstring := own o key.

(** [removeItem(key)]: [delete] gives [true], the property being there or
    not. *)
Definition removeItem (key : jsstring) (o : storage) : bool * storage :=
  (true, delete o key).

(** [clear()] *)
Definition clear (o : storage) : storage := [].

(** The calls that change the storage, and the storage after a sequence of
    them on a new object. *)
Inductive call : Type :=
| SetItem (key value : jsstring)
| RemoveItem (key : jsstring)
| Clear.

Definition perform (o : storage) (c : call) : storage :=
  match c with
  | SetItem key value => snd (setItem key value o)
  | RemoveItem key => snd (removeItem key o)
  | Clear => clear o
  end.

Definition after (calls : list call) : storage := fold_left perform calls new.

End MemoryStorage.

(** ** cookie-storage.js: reading a cookie *)

Module CookieStorage.

(** [s.charAt(i)]: the empty string outside the string. *)
Definition charAt_ (s : jsstring) (i : Z) : jsstring :=
  match charAt s i with
  | Some x => x
  | None => []
  end.

(** [s.substring(from, to)]: both ends are clamped to the string and
    swapped when they come in the wrong order. *)
Definition substring (s : jsstring) (from to : Z) : jsstring :=
  let clamp i := Z.min (Z.max i 0) (len s) in
  let lo := Z.min (clamp from) (clamp to) in
  let hi := Z.max (clamp from) (clamp to) in
  firstn (Z.to_nat (hi - lo)) (skipn (Z.to_nat lo) s).

(** [name] stands at the beginning of [s]. *)
Fixpoint starts_with (name s : jsstring) : bool :=
  match name, s with
  | [], _ => true
  | x :: name', y :: s' => (x =? y) && starts_with name' s'
  | _ :: _, [] => false
  end.

(** [s.indexOf(name)], counting from [pos]: the first position where
    [name] occurs, or -1. *)
Fixpoint indexOf_from (pos : Z) (s name : jsstring) : Z :=
  if starts_with name s then pos
  else match s with
       | [] => -1
       | _ :: s' => indexOf_from (pos + 1) s' name
       end.

Definition indexOf (s name : jsstring) : Z := indexOf_from 0 s name.

(** [s.split(sep)] for a separator of one character. *)
Fixpoint split (sep : jschar) (s : jsstring) : list jsstring :=
  match s with
  | [] => [[]]
  | c :: s' =>
      if c =? sep then [] :: split sep s'
      else match split sep s' with
           | piece :: pieces => (c :: piece) :: pieces
           | [] => [[c]]
           end
  end.

(** Lines 66-68: drop the leading blanks. *)
Definition blank_cond (singleCookie : jsstring) : bool :=
  charAt_ singleCookie 0 === lit " ".
Definition blank_body (singleCookie : jsstring) : jsstring :=
  substring singleCookie 1 (len singleCookie).

(** Lines 63-73: the loop over the cookies, left at the first one that
    begins with [name]; [None] is the [false] of line 75. *)
Fixpoint search (name : jsstring) (allCookies : list jsstring) : option jsstring :=
  match allCookies with
  | [] => None
  | singleCookie :: others =>
      match while_ (length singleCookie) blank_cond blank_body singleCookie with
      | None => None
      | Some singleCookie' =>
          if indexOf singleCookie' name =? 0
          then Some (substring singleCookie' (len name) (len singleCookie'))
          else search name others
      end
  end.

(** [getItem(key)] for a string [key], where [document.cookie] is [cookie];
    [None] is [false]. *)
Definition getItem (cookie key : jsstring) : option jsstring :=
  match key with
  | [] => None
  | _ :: _ => search (key ++ lit "=") (split 59 cookie)
  end.

End CookieStorage.

(** A string without its leading blanks. *)
Fixpoint drop_blanks (s : jsstring) : jsstring :=
  match s with
  | [] => []
  | c :: s' => if c =? 32 then drop_blanks s' else s
  end.

(** The value of [document.cookie] when the browser holds the cookies
    [pairs]: [name=value] for each, separated by a semicolon and a blank. *)
Fixpoint cookie_string (pairs : list (jsstring * jsstring)) : jsstring :=
  match pairs with
  | [] => []
  | (k, v) :: pairs' =>
      match pairs' with
      | [] => k ++ lit "=" ++ v
      | _ :: _ => k ++ lit "=" ++ v ++ lit "; " ++ cookie_string pairs'
      end
  end.

(** The value of the first cookie named [key]. *)
Fixpoint first_value (key : jsstring) (pairs : list (jsstring * jsstring))
    : option jsstring :=
  match pairs with
  | [] => None
  | (k, v) :: pairs' => if k === key then Some v else first_value key pairs'
  end.

(** A cookie the browser can hold: no semicolon or equals sign in the name,
    no blank at its beginning, no semicolon in the value. *)
Definition cookie_ok (p : jsstring * jsstring) : Prop :=
  ~ In 59 (fst p) /\ ~ In 61 (fst p) /\ hd_error (fst p) <> Some 32
  /\ ~ In 59 (snd p).

(** ** The statements of the specification that are compared with the code *)

(** The normalized length of a text: the number of its characters that are
    in A-Z after upper-casing. *)
Definition normalized_length (toUpperCase : jsstring -> jsstring) (text : jsstring) : Z :=
  len (filter isAZ (toUpperCase text)).

(** The symbol of the CH rule as the specification words it: K unless the
    letter three positions back is in the no-GH-to-F class, K as well when
    the letter after the H is R, the SH symbol otherwise. *)
Definition spec_CH_symbol (toUpperCase : jsstring -> jsstring) (word : jsstring)
    (w_idx : Z) : jsstring :=
  if negb (truthy (Metaphone.noGhToF (Metaphone.lookAhead toUpperCase word w_idx (-3))))
     || (Metaphone.lookAhead toUpperCase word w_idx 2 === lit "R")
  then lit "K"
  else Metaphone.SH.

(** The CH rule as the specification words it, with "the letter three
    positions back" read as the G rule of the code reads it,
    [lookAhead(word, w_idx, -3)]. *)
Definition spec_CH_rule (toUpperCase : jsstring -> jsstring) (word : jsstring)
    (maxBufferLen : Z) (s : Metaphone.state) : Prop :=
  Metaphone.convertRaw toUpperCase (charAt word (Metaphone.w_idx s)) = lit "C" ->
  Metaphone.convertRaw toUpperCase (charAt word (Metaphone.w_idx s + 1)) = lit "H" ->
  Metaphone.result (Metaphone.loop_body toUpperCase word maxBufferLen s)
  = Metaphone.result
      (Metaphone.phonize maxBufferLen
         (spec_CH_symbol toUpperCase word (Metaphone.w_idx s)) s)
  /\ Metaphone.w_idx (Metaphone.loop_body toUpperCase word maxBufferLen s)
     = Metaphone.w_idx s + 2.

(** Duplicate-group collapsing: in [digits], appended while the register
    held [lastCode], no digit equals the one before it, and the first one
    differs from [lastCode]. *)
Fixpoint collapsed (lastCode : Soundex.value) (digits : list jschar) : Prop :=
  match digits with
  | [] => True
  | d :: digits' => Soundex.Str [d] <> lastCode /\ collapsed (Soundex.Str [d]) digits'
  end.

(** ** Sets and measures used by the further properties *)

(** Every character of [s] is one of [allowed]. *)
Definition within (allowed s : jsstring) : bool :=
  forallb (fun c => existsb (Z.eqb c) allowed) s.

(** The symbols phase 2 of [metaphone] can emit, and those of phase 1. *)
Definition later_symbols : jsstring := lit "0BFHJKLMNPRSTWXY".
Definition first_symbols : jsstring := lit "AEIOUNRSW".

(** What a character of the word can add to the code: two symbols for an X,
    one for another letter, none for any other character. *)
Definition letter_weight (c : jschar) : Z :=
  if isAZ c then (if [c] === lit "X" then 2 else 1) else 0.

Fixpoint weight (s : jsstring) : Z :=
  match s with
  | [] => 0
  | c :: s' => letter_weight c + weight s'
  end.

(** A state of [metaphone] whose result is [base] followed by symbols of
    phase 2. *)
Definition extends (base : jsstring) (s : Metaphone.state) : Prop :=
  exists e, Metaphone.result s = base ++ e /\ within later_symbols e = true.

(** The symbols emitted so far are paid for by the characters the cursor
    has passed. *)
Definition paid (word : jsstring) (s : Metaphone.state) : Prop :=
  0 <= Metaphone.w_idx s
  /\ len (Metaphone.result s) <= weight (firstn (Z.to_nat (Metaphone.w_idx s)) word).

(** Two states of runs on the same word: the cursors agree and the first
    result is the second one cut to [m1] symbols. *)
Definition cut (m1 : Z) (s1 s2 : Metaphone.state) : Prop :=
  Metaphone.w_idx s1 = Metaphone.w_idx s2
  /\ Metaphone.result s1 = firstn (Z.to_nat m1) (Metaphone.result s2).

(** [name=value] *)
Definition pair_text (p : jsstring * jsstring) : jsstring :=
  fst p ++ lit "=" ++ snd p.

(** * Properties *)

Ltac split_ifs :=
  repeat match goal with
         | |- context [if ?b then _ else _] => destruct b eqn:?
         end.

(** ** Strings and loops *)

Lemma str_eqb_eq (a b : jsstring) : (a === b) = true <-> a = b.
Proof.
  revert b; induction a as [|x a IH]; intros [|y b]; simpl; split;
    try congruence; try reflexivity.
  - intros H. apply andb_true_iff in H as [Hx Hab].
    apply Z.eqb_eq in Hx. apply IH in Hab. congruence.
  - intros H. injection H as -> ->. rewrite Z.eqb_refl. simpl.
    now apply IH.
Qed.

Arguments str_eqb : simpl never.

Lemma len_app (a b : jsstring) : len (a ++ b) = len a + len b.
Proof. unfold len. rewrite length_app. lia. Qed.

Lemma len_nonneg (a : jsstring) : 0 <= len a.
Proof. unfold len. lia. Qed.

Lemma charAt_In (s : jsstring) (i : Z) (x : jsstring) :
  charAt s i = Some x -> exists c, x = [c] /\ In c s.
Proof.
  unfold charAt. destruct (i <? 0); [discriminate|].
  destruct (nth_error s (Z.to_nat i)) as [c|] eqn:E; [|discriminate].
  intros [= <-]. exists c. split; [reflexivity|].
  eapply nth_error_In; eassumption.
Qed.

Section While.

Context {S : Type}.
Variables (cond : S -> bool) (body : S -> S).

(** Two loops with the same condition and body on the states that matter
    run alike. *)
Lemma while_ext (cond' : S -> bool) (body' : S -> S) :
  (forall s, cond s = cond' s) -> (forall s, body s = body' s) ->
  forall fuel s, while_ fuel cond body s = while_ fuel cond' body' s.
Proof.
  intros Hc Hb fuel; induction fuel as [|n IH]; intros s; simpl;
    rewrite <- Hc; destruct (cond s); try reflexivity.
  rewrite <- Hb. apply IH.
Qed.

(** A loop whose body decreases a measure stops within that many
    iterations. *)
Lemma while_terminates (m : S -> nat) :
  (forall s, cond s = true -> (m (body s) < m s)%nat) ->
  forall fuel s, (m s <= fuel)%nat -> exists s', while_ fuel cond body s = Some s'.
Proof.
  intros Hm fuel; induction fuel as [|n IH]; intros s Hs; simpl;
    destruct (cond s) eqn:Hc; eauto.
  - specialize (Hm s Hc). lia.
  - apply IH. specialize (Hm s Hc). lia.
Qed.

(** More fuel does not change the outcome of a loop that stopped. *)
Lemma while_more_fuel (fuel : nat) :
  forall extra s s', while_ fuel cond body s = Some s' ->
  while_ (fuel + extra) cond body s = Some s'.
Proof.
  induction fuel as [|n IH]; intros extra s s'; simpl.
  - destruct (cond s) eqn:Hc; [discriminate|].
    intros H. destruct extra; simpl; rewrite Hc; exact H.
  - destruct (cond s) eqn:Hc; [|trivial]. apply IH.
Qed.

(** An invariant of the body holds when the loop stops, where the condition
    is false. *)
Lemma while_invariant (P : S -> Prop) :
  (forall s, P s -> cond s = true -> P (body s)) ->
  forall fuel s s', P s -> while_ fuel cond body s = Some s' ->
  P s' /\ cond s' = false.
Proof.
  intros Hp fuel; induction fuel as [|n IH]; intros s s' Hs; simpl;
    destruct (cond s) eqn:Hc; try discriminate.
  - intros [= <-]. auto.
  - apply IH. auto.
  - intros [= <-]. auto.
Qed.

End While.

(** ** Metaphone: the cursor and termination *)

Section MetaphoneCursor.

Import Metaphone.

Variable toUpperCase : jsstring -> jsstring.

Lemma w_idx_phonize (m : Z) (c : jsstring) (s : state) :
  w_idx (phonize m c s) = w_idx s.
Proof. unfold phonize. destruct (len (result s) <? m); reflexivity. Qed.

Lemma w_idx_advance (n : Z) (s : state) : w_idx (advance n s) = w_idx s + n.
Proof. reflexivity. Qed.

Lemma result_advance (n : Z) (s : state) : result (advance n s) = result s.
Proof. reflexivity. Qed.

(** The switch moves the cursor by one position in a digraph-consuming
    branch and leaves it alone otherwise. *)
Lemma process_letter_w_idx (word : jsstring) (mbl : Z)
    (curr prev next after : jsstring) (s : state) :
  let s' := process_letter toUpperCase word mbl curr prev next after s in
  w_idx s' = w_idx s \/ w_idx s' = w_idx s + 1.
Proof.
  unfold process_letter. split_ifs;
    rewrite ?w_idx_advance, ?w_idx_phonize; auto.
Qed.

Lemma loop_body_w_idx (word : jsstring) (mbl : Z) (s : state) :
  let s' := loop_body toUpperCase word mbl s in
  w_idx s' = w_idx s + 1 \/ w_idx s' = w_idx s + 2.
Proof.
  unfold loop_body.
  destruct (negb (test_AZ _)); rewrite w_idx_advance; [auto|].
  match goal with
  | |- context [process_letter ?u ?w ?m ?c ?p ?n ?a s] =>
      destruct (process_letter_w_idx w m c p n a s) as [-> | ->]
  end; auto.
  right. lia.
Qed.

Lemma first_letter_w_idx (word : jsstring) (mbl : Z) (s : state) :
  w_idx s <= w_idx (first_letter toUpperCase word mbl s).
Proof.
  unfold first_letter. split_ifs;
    rewrite ?w_idx_advance, ?w_idx_phonize; lia.
Qed.

Lemma skip_decreases (word : jsstring) (wordLen : Z) (s : state) :
  skip_cond word wordLen s = true ->
  (distance wordLen (advance 1 s) < distance wordLen s)%nat.
Proof.
  unfold skip_cond, distance. rewrite w_idx_advance.
  intros H. apply andb_true_iff in H as [_ H]. apply Z.ltb_lt in H. lia.
Qed.

Lemma loop_decreases (word : jsstring) (wordLen maxPhonemes mbl : Z) (s : state) :
  loop_cond wordLen maxPhonemes s = true ->
  (distance wordLen (loop_body toUpperCase word mbl s) < distance wordLen s)%nat.
Proof.
  unfold loop_cond, distance.
  intros H. apply andb_true_iff in H as [H _]. apply Z.ltb_lt in H.
  destruct (loop_body_w_idx word mbl s) as [E | E]; rewrite E; lia.
Qed.

Lemma skip_loop_stops (word : jsstring) (wordLen : Z) (fuel : nat) :
  (Z.to_nat wordLen <= fuel)%nat ->
  exists s0, while_ fuel (skip_cond word wordLen) (advance 1)
               {| result := []; w_idx := 0 |} = Some s0
             /\ result s0 = [] /\ 0 <= w_idx s0.
Proof.
  intros Hf.
  destruct (while_terminates (skip_cond word wordLen) (advance 1) (distance wordLen)
              (skip_decreases word wordLen) fuel {| result := []; w_idx := 0 |})
    as [s0 Hs0].
  { unfold distance; simpl. lia. }
  exists s0. split; [exact Hs0|].
  apply (while_invariant _ _ (fun s => result s = [] /\ 0 <= w_idx s)) in Hs0 as [H _].
  - exact H.
  - intros s [Hr Hw] _. rewrite result_advance, w_idx_advance. split; [exact Hr | lia].
  - simpl. split; [reflexivity | lia].
Qed.

Lemma metaphone_fuel_stops (text : jsstring) (k : Z) (fuel : nat) :
  (length text <= fuel)%nat ->
  exists r, metaphone_fuel toUpperCase fuel text k = Some r.
Proof.
  intros Hf. unfold metaphone_fuel.
  destruct (skip_loop_stops (toUpperCase text) (len text) fuel) as (s0 & -> & _ & Hw).
  { unfold len. lia. }
  destruct (len text <=? w_idx s0); [eauto|].
  set (mbl := if 0 <? k then k else len text).
  destruct (while_terminates (loop_cond (len text) k)
              (loop_body toUpperCase (toUpperCase text) mbl) (distance (len text))
              (loop_decreases (toUpperCase text) (len text) k mbl) fuel
              (first_letter toUpperCase (toUpperCase text) mbl s0)) as [s Hs].
  { pose proof (first_letter_w_idx (toUpperCase text) mbl s0).
    unfold distance, len in *. lia. }
  rewrite Hs. eauto.
Qed.

Lemma metaphone_fuel_more (text : jsstring) (k : Z) (fuel extra : nat) (r : jsstring) :
  metaphone_fuel toUpperCase fuel text k = Some r ->
  metaphone_fuel toUpperCase (fuel + extra) text k = Some r.
Proof.
  unfold metaphone_fuel.
  destruct (while_ fuel (skip_cond _ _) _ _) as [s0|] eqn:E0; [|discriminate].
  rewrite (while_more_fuel _ _ _ extra _ _ E0).
  destruct (len text <=? w_idx s0); [trivial|].
  destruct (while_ fuel (loop_cond _ _) _ _) as [s|] eqn:E1; [|discriminate].
  now rewrite (while_more_fuel _ _ _ extra _ _ E1).
Qed.

Ltac closed_eqb :=
  repeat match goal with
         | |- context [lit ?a === lit ?b] =>
             let v := eval vm_compute in (lit a === lit b) in
             change (lit a === lit b) with v
         end.

Ltac cursor_cases :=
  cbv beta iota; cbn [andb orb negb]; split_ifs; cbn [andb orb negb];
  rewrite ?w_idx_advance, ?w_idx_phonize;
  first [ apply Z.eqb_refl | apply Z.eqb_neq; lia ].

(** The switch moves the cursor exactly in the digraph-consuming
    branches. *)
Lemma process_letter_digraph (word : jsstring) (mbl : Z)
    (curr prev next after : jsstring) (s : state) :
  (w_idx (process_letter toUpperCase word mbl curr prev next after s) =? w_idx s + 1)
  = digraph_consumed curr next after (lookAhead toUpperCase word (w_idx s) (-3)).
Proof.
  destruct (curr === lit "C") eqn:EC;
    [apply str_eqb_eq in EC; subst curr;
     unfold process_letter, digraph_consumed; closed_eqb; cursor_cases|].
  destruct (curr === lit "D") eqn:ED;
    [apply str_eqb_eq in ED; subst curr;
     unfold process_letter, digraph_consumed; closed_eqb; cursor_cases|].
  destruct (curr === lit "G") eqn:EG;
    [apply str_eqb_eq in EG; subst curr;
     unfold process_letter, digraph_consumed; closed_eqb; cursor_cases|].
  destruct (curr === lit "S") eqn:ES;
    [apply str_eqb_eq in ES; subst curr;
     unfold process_letter, digraph_consumed; closed_eqb; cursor_cases|].
  destruct (curr === lit "T") eqn:ET;
    [apply str_eqb_eq in ET; subst curr;
     unfold process_letter, digraph_consumed; closed_eqb; cursor_cases|].
  unfold process_letter, digraph_consumed. rewrite EC, ED, EG, ES, ET. cursor_cases.
Qed.

(** A string that is not a letter starts no digraph. *)
Lemma no_letter_no_digraph (curr next after back : jsstring) :
  test_AZ (Some curr) = false -> digraph_consumed curr next after back = false.
Proof.
  intros H. unfold digraph_consumed.
  assert (Hl : forall l, test_AZ (Some (lit l)) = true -> (curr === lit l) = false).
  { intros l Hl. destruct (curr === lit l) eqn:E; [|reflexivity].
    apply str_eqb_eq in E. subst curr. congruence. }
  now rewrite !Hl by reflexivity.
Qed.

(** One iteration of the phase-2 loop moves the cursor by two positions in
    a digraph-consuming branch and by one otherwise. *)
Lemma loop_body_step (word : jsstring) (mbl : Z) (s : state) :
  w_idx (loop_body toUpperCase word mbl s)
  = w_idx s
    + (if digraph_consumed
            (convertRaw toUpperCase (charAt word (w_idx s)))
            (convertRaw toUpperCase (charAt word (w_idx s + 1)))
            (lookAhead toUpperCase word (w_idx s) 2)
            (lookAhead toUpperCase word (w_idx s) (-3))
       then 2 else 1).
Proof.
  unfold loop_body.
  destruct (test_AZ (Some (convertRaw toUpperCase (charAt word (w_idx s))))) eqn:T;
    cbn [negb]; rewrite w_idx_advance.
  - match goal with
    | |- context [process_letter ?u ?w ?m ?c ?p ?n ?a s] =>
        pose proof (process_letter_digraph w m c p n a s) as Hd;
        pose proof (process_letter_w_idx w m c p n a s) as Hw
    end.
    cbv zeta in Hw.
    destruct (digraph_consumed _ _ _ _).
    + apply Z.eqb_eq in Hd. lia.
    + apply Z.eqb_neq in Hd. lia.
  - now rewrite no_letter_no_digraph.
Qed.

(** C6: [metaphone] terminates for every text and every integer
    [maxPhonemes].  Each iteration of the phase-2 loop moves the cursor
    forward by one position, and by one more exactly in the
    digraph-consuming branches (CH; DG before a soft-making letter; GH when
    the letter three back is not in the no-GH-to-F class; SH and SI before A
    or O; TH), so the loops stop within as many iterations as the text has
    characters: with that much fuel, or more, the run returns the value of
    [metaphone]. *)
Theorem metaphone_terminates (text : jsstring) (maxPhonemes : Z) :
  (forall word maxBufferLen s,
      w_idx (loop_body toUpperCase word maxBufferLen s) = w_idx s + 1
      \/ w_idx (loop_body toUpperCase word maxBufferLen s) = w_idx s + 2)
  /\ (forall word maxBufferLen s,
         w_idx (loop_body toUpperCase word maxBufferLen s)
         = w_idx s
           + (if digraph_consumed
                   (convertRaw toUpperCase (charAt word (w_idx s)))
                   (convertRaw toUpperCase (charAt word (w_idx s + 1)))
                   (lookAhead toUpperCase word (w_idx s) 2)
                   (lookAhead toUpperCase word (w_idx s) (-3))
              then 2 else 1))
  /\ (forall extra : nat,
         metaphone_fuel toUpperCase (length text + extra) text maxPhonemes
         = Some (metaphone toUpperCase text maxPhonemes)).
Proof.
  split; [|split].
  - intros word mbl s. apply loop_body_w_idx.
  - intros word mbl s. apply loop_body_step.
  - intros extra. unfold metaphone.
    destruct (metaphone_fuel_stops text maxPhonemes (length text) (le_n _)) as [r Hr].
    rewrite Hr. now apply metaphone_fuel_more.
Qed.

End MetaphoneCursor.

(** ** Metaphone: the length of the code *)

Section MetaphoneLength.

Import Metaphone.

Variable toUpperCase : jsstring -> jsstring.

Lemma phonize_grow (m : Z) (c : jsstring) (s : state) :
  len c <= 1 -> len (result (phonize m c s)) <= len (result s) + 1.
Proof.
  intros Hc. unfold phonize. destruct (len (result s) <? m); simpl;
    rewrite ?len_app; lia.
Qed.

Lemma phonize_bound (m : Z) (c : jsstring) (s : state) :
  len c <= 1 -> len (result s) <= m -> len (result (phonize m c s)) <= m.
Proof.
  intros Hc Hs. unfold phonize. destruct (len (result s) <? m) eqn:E; simpl;
    [|exact Hs].
  apply Z.ltb_lt in E. rewrite len_app. lia.
Qed.

Lemma vowel_case_len (c : jsstring) :
  (c === lit "E") || (c === lit "I") || (c === lit "O") || (c === lit "U") = true ->
  len c <= 1.
Proof.
  rewrite !orb_true_iff, !str_eqb_eq.
  intros [[[-> | ->] | ->] | ->]; now vm_compute.
Qed.

Ltac literal_len :=
  match goal with
  | |- len _ <= 1 => first [ now vm_compute | now apply vowel_case_len | assumption ]
  end.

(** Phase 1 appends at most one symbol, and respects the buffer. *)
Lemma first_letter_grow (word : jsstring) (mbl : Z) (s : state) :
  len (result (first_letter toUpperCase word mbl s)) <= len (result s) + 1.
Proof.
  unfold first_letter. cbv zeta. split_ifs; rewrite ?result_advance;
    try (apply phonize_grow; literal_len); lia.
Qed.

Lemma first_letter_bound (word : jsstring) (mbl : Z) (s : state) :
  len (result s) <= mbl ->
  len (result (first_letter toUpperCase word mbl s)) <= mbl.
Proof.
  intros Hs. unfold first_letter. cbv zeta. split_ifs; rewrite ?result_advance;
    try (apply phonize_bound; [literal_len | exact Hs]); exact Hs.
Qed.

(** The switch respects the buffer when the current letter is one code
    unit at most. *)
Lemma process_letter_bound (word : jsstring) (mbl : Z)
    (curr prev next after : jsstring) (s : state) :
  len curr <= 1 -> len (result s) <= mbl ->
  len (result (process_letter toUpperCase word mbl curr prev next after s)) <= mbl.
Proof.
  intros Hc Hs. unfold process_letter. split_ifs; rewrite ?result_advance;
    repeat (apply phonize_bound; [literal_len|]); exact Hs.
Qed.

(** From here on: upper-casing one code unit of an upper-cased string gives
    that code unit back. *)
Hypothesis toUpperCase_stable :
  forall s c, In c (toUpperCase s) -> toUpperCase [c] = [c].

Lemma currLetter_len (text : jsstring) (i : Z) :
  len (convertRaw toUpperCase (charAt (toUpperCase text) i)) <= 1.
Proof.
  destruct (charAt (toUpperCase text) i) as [x|] eqn:E; simpl; [|now vm_compute].
  apply charAt_In in E as (c & -> & Hin).
  rewrite (toUpperCase_stable _ _ Hin). now vm_compute.
Qed.

Lemma loop_body_bound (text : jsstring) (mbl : Z) (s : state) :
  len (result s) <= mbl ->
  len (result (loop_body toUpperCase (toUpperCase text) mbl s)) <= mbl.
Proof.
  intros Hs. unfold loop_body.
  destruct (negb (test_AZ _)); rewrite result_advance; [exact Hs|].
  apply process_letter_bound; [apply currLetter_len | exact Hs].
Qed.

(** The buffer length that line 74 computes. *)
Lemma metaphone_fuel_bound (fuel : nat) (text : jsstring) (k : Z) (r : jsstring) :
  metaphone_fuel toUpperCase fuel text k = Some r ->
  len r <= (if 0 <? k then k else len text).
Proof.
  unfold metaphone_fuel.
  set (mbl := if 0 <? k then k else len text).
  assert (Hm : 0 <= mbl).
  { subst mbl. destruct (0 <? k) eqn:E; [apply Z.ltb_lt in E; lia | apply len_nonneg]. }
  destruct (while_ fuel (skip_cond _ _) _ _) as [s0|] eqn:E0; [|discriminate].
  apply (while_invariant _ _ (fun s => result s = [])) in E0 as [Hr0 _];
    [| intros s Hr _; exact Hr | reflexivity].
  destruct (len text <=? w_idx s0).
  - intros [= <-]. rewrite Hr0. exact Hm.
  - destruct (while_ fuel (loop_cond _ _) _ _) as [s|] eqn:E1; [|discriminate].
    intros [= <-].
    apply (while_invariant _ _ (fun s => len (result s) <= mbl)) in E1 as [H _].
    + exact H.
    + intros s' Hs' _. now apply loop_body_bound.
    + apply first_letter_bound. rewrite Hr0. exact Hm.
Qed.

Lemma metaphone_buffer (text : jsstring) (k : Z) :
  len (metaphone toUpperCase text k) <= (if 0 <? k then k else len text).
Proof.
  unfold metaphone.
  destruct (metaphone_fuel toUpperCase (length text) text k) as [r|] eqn:E.
  - now apply metaphone_fuel_bound in E.
  - destruct (0 <? k) eqn:Hk; [|apply len_nonneg].
    apply Z.ltb_lt in Hk. unfold len; simpl. lia.
Qed.

(** C4: for every text and every integer [k > 0] the code
    [metaphone(text, k)] has at most [k] characters; [phonize] checks the
    buffer at every symbol, so the second symbol of the X rule is dropped
    when the first one filled the buffer. *)
Theorem metaphone_cap (text : jsstring) (k : Z) :
  0 < k -> len (metaphone toUpperCase text k) <= k.
Proof.
  intros Hk. pose proof (metaphone_buffer text k) as H.
  apply Z.ltb_lt in Hk. now rewrite Hk in H.
Qed.

(** C1, as the code has it: [metaphone(text, 0)] has at most as many
    characters as [text] itself has, non-letters included (the buffer is
    sized by [word.length], taken before any filtering). *)
Theorem metaphone_uncapped_length (text : jsstring) :
  len (metaphone toUpperCase text 0) <= len text.
Proof. exact (metaphone_buffer text 0). Qed.

End MetaphoneLength.

Lemma toUpperCase_ascii_stable (s : jsstring) (c : jschar) :
  In c (toUpperCase_ascii s) -> toUpperCase_ascii [c] = [c].
Proof.
  unfold toUpperCase_ascii. intros H. apply in_map_iff in H as (x & <- & _).
  simpl. f_equal.
  destruct ((97 <=? x) && (x <=? 122)) eqn:E.
  - apply andb_true_iff in E as [E1 E2]. apply Z.leb_le in E1, E2.
    destruct ((97 <=? x - 32) && (x - 32 <=? 122)) eqn:E'; [|reflexivity].
    apply andb_true_iff in E' as [E3 _]. apply Z.leb_le in E3. lia.
  - now rewrite E.
Qed.

(** The word "AXE" capped at two symbols: A, then the K of the X rule; its S
    finds the buffer full. *)
Lemma metaphone_cap_witness :
  0 < 2
  /\ Metaphone.metaphone toUpperCase_ascii (lit "AXE") 2 = lit "AK"
  /\ len (Metaphone.metaphone toUpperCase_ascii (lit "AXE") 2) <= 2.
Proof.
  split; [lia|]. split; [reflexivity|].
  apply (metaphone_cap toUpperCase_ascii toUpperCase_ascii_stable (lit "AXE") 2).
  lia.
Defined.

Lemma metaphone_uncapped_length_witness :
  len (Metaphone.metaphone toUpperCase_ascii (lit "BX1") 0) <= len (lit "BX1").
Proof.
  apply (metaphone_uncapped_length toUpperCase_ascii toUpperCase_ascii_stable (lit "BX1")).
Defined.

(** C1 as the specification states it fails: "BX1" has two letters, and its
    code has three symbols, B and the K and S of the X rule. *)
Lemma metaphone_normalized_length_fails :
  Metaphone.metaphone toUpperCase_ascii (lit "BX1") 0 = lit "BKS"
  /\ normalized_length toUpperCase_ascii (lit "BX1") = 2
  /\ ~ (len (Metaphone.metaphone toUpperCase_ascii (lit "BX1") 0)
        <= normalized_length toUpperCase_ascii (lit "BX1")).
Proof.
  split; [reflexivity|]. split; [reflexivity|].
  intros H. vm_compute in H. apply H. reflexivity.
Qed.

(** ** Metaphone: a negative cap, and the CH rule *)

Section MetaphoneRules.

Import Metaphone.

Variable toUpperCase : jsstring -> jsstring.

Lemma while_not_entered {S : Type} (cond : S -> bool) (body : S -> S) (fuel : nat) (s : S) :
  cond s = false -> while_ fuel cond body s = Some s.
Proof. intros H. destruct fuel; simpl; now rewrite H. Qed.

(** C10: for every text and every integer [k < 0] the condition of the
    phase-2 loop is false in every state, so [metaphone(text, k)] is what
    phase 1 left in the buffer (sized by the length of the text): nothing
    when the text has no letter, the output of the leading-letter switch
    otherwise; that is one symbol at most. *)
Theorem metaphone_negative_cap (text : jsstring) (k : Z) :
  k < 0 ->
  (forall wordLen s, loop_cond wordLen k s = false)
  /\ (exists s0,
        while_ (length text) (skip_cond (toUpperCase text) (len text)) (advance 1)
          {| result := []; w_idx := 0 |} = Some s0
        /\ metaphone toUpperCase text k
           = if len text <=? w_idx s0 then []
             else result (first_letter toUpperCase (toUpperCase text) (len text) s0))
  /\ len (metaphone toUpperCase text k) <= 1.
Proof.
  intros Hk.
  assert (Hcond : forall wordLen s, loop_cond wordLen k s = false).
  { intros wordLen s. unfold loop_cond.
    pose proof (len_nonneg (result s)).
    replace (k =? 0) with false by (symmetry; apply Z.eqb_neq; lia).
    replace (len (result s) <? k) with false by (symmetry; apply Z.ltb_ge; lia).
    apply andb_false_r. }
  destruct (skip_loop_stops (toUpperCase text) (len text) (length text))
    as (s0 & Hs0 & Hr0 & _).
  { unfold len. lia. }
  assert (Hm : metaphone toUpperCase text k
               = if len text <=? w_idx s0 then []
                 else result (first_letter toUpperCase (toUpperCase text) (len text) s0)).
  { unfold metaphone, metaphone_fuel. rewrite Hs0.
    replace (0 <? k) with false by (symmetry; apply Z.ltb_ge; lia).
    destruct (len text <=? w_idx s0); [exact Hr0|].
    now rewrite while_not_entered by apply Hcond. }
  split; [exact Hcond|]. split; [eauto|].
  rewrite Hm. destruct (len text <=? w_idx s0); [now vm_compute|].
  pose proof (first_letter_grow toUpperCase (toUpperCase text) (len text) s0) as H.
  rewrite Hr0 in H. exact H.
Qed.

(** C2, as the code has it: when the current letter is C and the next one
    is H (which is not soft-making), the encoder emits K if the letter just
    before the C is not in the no-GH-to-F class or if the letter after the H
    is R, and the SH symbol otherwise; in both cases it moves the cursor two
    positions on, past the H. *)
Theorem CH_rule (word : jsstring) (maxBufferLen : Z) (s : state) :
  convertRaw toUpperCase (charAt word (w_idx s)) = lit "C" ->
  convertRaw toUpperCase (charAt word (w_idx s + 1)) = lit "H" ->
  let prevLetter :=
    if 0 <? w_idx s then convertRaw toUpperCase (charAt word (w_idx s - 1)) else NUL in
  let afterNextLetter := lookAhead toUpperCase word (w_idx s) 2 in
  let symbol :=
    if negb (truthy (noGhToF prevLetter)) || (afterNextLetter === lit "R")
    then lit "K" else SH in
  truthy (makeSoft (lit "H")) = false
  /\ result (loop_body toUpperCase word maxBufferLen s)
     = result (phonize maxBufferLen symbol s)
  /\ w_idx (loop_body toUpperCase word maxBufferLen s) = w_idx s + 2.
Proof.
  intros Hc Hn prevLetter afterNextLetter symbol.
  split; [reflexivity|].
  unfold loop_body. rewrite Hc, Hn. fold prevLetter afterNextLetter.
  change (negb (test_AZ (Some (lit "C")))) with false. cbv iota.
  unfold process_letter.
  change (lit "C" === lit "B") with false.
  change (lit "C" === lit "C") with true.
  change (truthy (makeSoft (lit "H"))) with false.
  change (lit "H" === lit "H") with true.
  cbv iota. fold symbol. subst symbol.
  destruct (negb (truthy (noGhToF prevLetter)) || (afterNextLetter === lit "R"));
    rewrite !result_advance, !w_idx_advance, w_idx_phonize; split; (reflexivity || lia).
Qed.

End MetaphoneRules.

(** "  axe" with the cap -1: phase 1 skips the blanks and emits A, and
    phase 2 does not run. *)
Lemma metaphone_negative_cap_witness :
  -1 < 0
  /\ Metaphone.metaphone toUpperCase_ascii (lit "  axe") (-1) = lit "A"
  /\ len (Metaphone.metaphone toUpperCase_ascii (lit "  axe") (-1)) <= 1.
Proof.
  split; [lia|]. split; [reflexivity|].
  apply (metaphone_negative_cap toUpperCase_ascii (lit "  axe") (-1)). lia.
Defined.

(** "SCHOOL": the C after the S is followed by H, S is not in the no-GH-to-F
    class, and the encoder emits K and moves on to the first O. *)
Lemma CH_rule_witness :
  Metaphone.convertRaw toUpperCase_ascii (charAt (lit "SCHOOL") 1) = lit "C"
  /\ Metaphone.convertRaw toUpperCase_ascii (charAt (lit "SCHOOL") (1 + 1)) = lit "H"
  /\ Metaphone.result
       (Metaphone.loop_body toUpperCase_ascii (lit "SCHOOL") 6
          {| Metaphone.result := lit "S"; Metaphone.w_idx := 1 |}) = lit "SK"
  /\ Metaphone.w_idx
       (Metaphone.loop_body toUpperCase_ascii (lit "SCHOOL") 6
          {| Metaphone.result := lit "S"; Metaphone.w_idx := 1 |}) = 3.
Proof.
  split; [reflexivity|]. split; [reflexivity|].
  exact (proj2 (CH_rule toUpperCase_ascii (lit "SCHOOL") 6
                  {| Metaphone.result := lit "S"; Metaphone.w_idx := 1 |}
                  eq_refl eq_refl)).
Defined.

(** C2 as the specification states it fails: in "BCHA" no letter stands
    three positions before the C, so the specification's rule gives K, but
    the B just before the C is in the no-GH-to-F class and the encoder emits
    the SH symbol; in "BAACHA" the letter three positions back is B, so the
    specification's rule gives the SH symbol, but the A just before the C is
    not in the class and the encoder emits K. *)
Lemma CH_rule_three_back_fails :
  (Metaphone.convertRaw toUpperCase_ascii (charAt (lit "BCHA") 1) = lit "C"
   /\ Metaphone.convertRaw toUpperCase_ascii (charAt (lit "BCHA") (1 + 1)) = lit "H"
   /\ spec_CH_symbol toUpperCase_ascii (lit "BCHA") 1 = lit "K"
   /\ Metaphone.loop_body toUpperCase_ascii (lit "BCHA") 4
        {| Metaphone.result := lit "B"; Metaphone.w_idx := 1 |}
      = {| Metaphone.result := lit "BX"; Metaphone.w_idx := 3 |}
   /\ Metaphone.metaphone toUpperCase_ascii (lit "BCHA") 0 = lit "BX")
  /\ (Metaphone.convertRaw toUpperCase_ascii (charAt (lit "BAACHA") 3) = lit "C"
      /\ Metaphone.convertRaw toUpperCase_ascii (charAt (lit "BAACHA") (3 + 1)) = lit "H"
      /\ spec_CH_symbol toUpperCase_ascii (lit "BAACHA") 3 = Metaphone.SH
      /\ Metaphone.loop_body toUpperCase_ascii (lit "BAACHA") 6
           {| Metaphone.result := lit "B"; Metaphone.w_idx := 3 |}
         = {| Metaphone.result := lit "BK"; Metaphone.w_idx := 5 |}
      /\ Metaphone.metaphone toUpperCase_ascii (lit "BAACHA") 0 = lit "BK")
  /\ ~ spec_CH_rule toUpperCase_ascii (lit "BCHA") 4
        {| Metaphone.result := lit "B"; Metaphone.w_idx := 1 |}
  /\ ~ spec_CH_rule toUpperCase_ascii (lit "BAACHA") 6
        {| Metaphone.result := lit "B"; Metaphone.w_idx := 3 |}.
Proof.
  split; [repeat split|]. split; [repeat split|].
  split; intros H; destruct (H eq_refl eq_refl) as [H' _];
    vm_compute in H'; discriminate H'.
Qed.

(** ** Metaphone: what the encoder asks of [toUpperCase] *)

Section MetaphoneExt.

Import Metaphone.

Variables up1 up2 : jsstring -> jsstring.
Variable word : jsstring.

(** The two built-ins agree on the code units of the word. *)
Hypothesis agree : forall c, In c word -> up1 [c] = up2 [c].

Lemma convertRaw_ext (i : Z) :
  convertRaw up1 (charAt word i) = convertRaw up2 (charAt word i).
Proof.
  destruct (charAt word i) as [x|] eqn:E; [|reflexivity].
  apply charAt_In in E as (c & -> & Hin). now apply agree.
Qed.

Lemma lookAhead_ext (i how_far : Z) :
  lookAhead up1 word i how_far = lookAhead up2 word i how_far.
Proof. unfold lookAhead. now rewrite convertRaw_ext. Qed.

Lemma first_letter_ext (mbl : Z) (s : state) :
  first_letter up1 word mbl s = first_letter up2 word mbl s.
Proof. unfold first_letter. now rewrite !convertRaw_ext. Qed.

Lemma loop_body_ext (mbl : Z) (s : state) :
  loop_body up1 word mbl s = loop_body up2 word mbl s.
Proof.
  unfold loop_body, process_letter.
  now rewrite !convertRaw_ext, !lookAhead_ext.
Qed.

End MetaphoneExt.

Lemma metaphone_ext (up1 up2 : jsstring -> jsstring) (text : jsstring) (k : Z) :
  up1 text = up2 text ->
  (forall c, In c (up2 text) -> up1 [c] = up2 [c]) ->
  Metaphone.metaphone up1 text k = Metaphone.metaphone up2 text k.
Proof.
  intros Ht Hc. unfold Metaphone.metaphone, Metaphone.metaphone_fuel.
  rewrite Ht.
  destruct (while_ _ (Metaphone.skip_cond _ _) _ _) as [s0|]; [|reflexivity].
  destruct (len text <=? Metaphone.w_idx s0); [reflexivity|].
  rewrite (first_letter_ext up1 up2 _ Hc).
  now rewrite (while_ext _ _ _ (Metaphone.loop_body up2 (up2 text) _)
                 (fun _ => eq_refl) (loop_body_ext up1 up2 _ Hc _)).
Qed.

Lemma toUpperCase_ascii_is_ascii (s : jsstring) :
  forallb is_ascii s = true -> forallb is_ascii (toUpperCase_ascii s) = true.
Proof.
  unfold toUpperCase_ascii. rewrite !forallb_forall. intros H c Hc.
  apply in_map_iff in Hc as (x & <- & Hx). specialize (H x Hx).
  unfold is_ascii in *. apply andb_true_iff in H as [H1 H2].
  apply Z.leb_le in H1. apply Z.ltb_lt in H2.
  destruct ((97 <=? x) && (x <=? 122)) eqn:E; apply andb_true_iff.
  - apply andb_true_iff in E as [E1 E2]. apply Z.leb_le in E1, E2.
    split; [apply Z.leb_le | apply Z.ltb_lt]; lia.
  - split; [apply Z.leb_le | apply Z.ltb_lt]; lia.
Qed.

(** ** The two encoders on the words of the specification *)

Section AsciiWords.

Variable toUpperCase : jsstring -> jsstring.

(** On ASCII text the built-in turns a-z into A-Z and keeps the rest. *)
Hypothesis toUpperCase_on_ascii :
  forall s, forallb is_ascii s = true -> toUpperCase s = toUpperCase_ascii s.

Lemma agree_on_ascii (word : jsstring) :
  forallb is_ascii word = true ->
  forall c, In c word -> toUpperCase [c] = toUpperCase_ascii [c].
Proof.
  intros Hw c Hc. apply toUpperCase_on_ascii. simpl.
  rewrite forallb_forall in Hw. now rewrite (Hw c Hc).
Qed.

Lemma metaphone_on_ascii (text : jsstring) (k : Z) :
  forallb is_ascii text = true ->
  Metaphone.metaphone toUpperCase text k = Metaphone.metaphone toUpperCase_ascii text k.
Proof.
  intros Ht. apply metaphone_ext; [now apply toUpperCase_on_ascii|].
  apply agree_on_ascii. now apply toUpperCase_ascii_is_ascii.
Qed.

Lemma soundex_on_ascii (text : jsstring) :
  forallb is_ascii text = true ->
  Soundex.soundex toUpperCase text = Soundex.soundex toUpperCase_ascii text.
Proof.
  intros Ht. unfold Soundex.soundex, Soundex.normalize.
  now rewrite toUpperCase_on_ascii.
Qed.

(** C7: in "Thompson" phase 1 emits nothing for the T, and the first
    iteration of phase 2 emits the TH symbol and moves the cursor from the T
    to the O, so the H is never the current letter; the code, "0MPSN",
    begins with the TH symbol.  In "Knight" the KN case of phase 1 emits N
    and moves the cursor past both letters; the code, "NFT", begins
    with N. *)
Theorem metaphone_digraphs :
  let start := {| Metaphone.result := []; Metaphone.w_idx := 0 |} in
  (Metaphone.first_letter toUpperCase (toUpperCase (lit "Thompson")) 8 start = start
   /\ Metaphone.loop_body toUpperCase (toUpperCase (lit "Thompson")) 8 start
      = {| Metaphone.result := Metaphone.TH; Metaphone.w_idx := 2 |}
   /\ Metaphone.metaphone toUpperCase (lit "Thompson") 0 = Metaphone.TH ++ lit "MPSN")
  /\ (Metaphone.first_letter toUpperCase (toUpperCase (lit "Knight")) 6 start
      = {| Metaphone.result := lit "N"; Metaphone.w_idx := 2 |}
      /\ Metaphone.metaphone toUpperCase (lit "Knight") 0 = lit "NFT").
Proof.
  intros start.
  rewrite !metaphone_on_ascii by reflexivity.
  rewrite !(toUpperCase_on_ascii (lit _)) by reflexivity.
  rewrite !(first_letter_ext toUpperCase toUpperCase_ascii)
    by (apply agree_on_ascii; reflexivity).
  rewrite !(loop_body_ext toUpperCase toUpperCase_ascii)
    by (apply agree_on_ascii; reflexivity).
  repeat split.
Qed.

(** C8: "Robert" and "Rupert" both have the code "R163"; the empty text
    and "123", which have no letter, have the empty code. *)
Theorem soundex_examples :
  Soundex.soundex toUpperCase (lit "Robert") = lit "R163"
  /\ Soundex.soundex toUpperCase (lit "Rupert") = lit "R163"
  /\ Soundex.soundex toUpperCase (lit "") = lit ""
  /\ Soundex.soundex toUpperCase (lit "123") = lit "".
Proof.
  rewrite !soundex_on_ascii by reflexivity. repeat split.
Qed.

End AsciiWords.

Lemma metaphone_digraphs_witness :
  Metaphone.metaphone toUpperCase_ascii (lit "Thompson") 0 = lit "0MPSN"
  /\ Metaphone.metaphone toUpperCase_ascii (lit "Knight") 0 = lit "NFT".
Proof.
  pose proof (metaphone_digraphs toUpperCase_ascii (fun s _ => eq_refl)) as H.
  split; [exact (proj2 (proj2 (proj1 H))) | exact (proj2 (proj2 H))].
Defined.

Lemma soundex_examples_witness :
  Soundex.soundex toUpperCase_ascii (lit "Robert") = lit "R163".
Proof.
  exact (proj1 (soundex_examples toUpperCase_ascii (fun s _ => eq_refl))).
Defined.

(** ** Soundex: the table and one letter *)

Section SoundexLetter.

Import Soundex.

Lemma str_eqb_refl (a : jsstring) : (a === a) = true.
Proof. now apply str_eqb_eq. Qed.

(** Every string of the table is one digit, 1 to 6. *)
Lemma soundexTable_digit (key d : jsstring) :
  get soundexTable key = Some (Str d) -> exists c, d = [c] /\ 49 <= c <= 54.
Proof.
  cbn [get soundexTable].
  repeat match goal with
         | |- context [if ?b then _ else _] => destruct b
         end;
    intros [= <-]; eexists; (split; [reflexivity | now vm_compute]).
Qed.

(** What lines 61-69 do: nothing, or they append a digit of the table that
    differs from the register, and store it in the register. *)
Lemma encode_letter_cases (char : option jsstring) (code : jsstring) (last : value) :
  encode_letter char code last = (code, last)
  \/ exists c, 49 <= c <= 54
       /\ get soundexTable (to_string char) = Some (Str [c])
       /\ Str [c] <> last
       /\ encode_letter char code last = (code ++ [c], Str [c]).
Proof.
  unfold encode_letter.
  destruct (get soundexTable (to_string char)) as [[|d]|] eqn:E; simpl; auto.
  apply soundexTable_digit in E as (c & -> & Hc). simpl.
  destruct last as [|y]; simpl.
  - right. exists c. split; [exact Hc|]. split; [reflexivity|].
    split; [discriminate | reflexivity].
  - destruct ([c] === y) eqn:Ey; simpl; [auto|].
    right. exists c. split; [exact Hc|]. split; [reflexivity|].
    split; [|reflexivity].
    intros [= <-]. now rewrite str_eqb_refl in Ey.
Qed.

Lemma encode_letter_no_digit (char : option jsstring) (code : jsstring) (last : value) :
  value_truthy (get soundexTable (to_string char)) = false ->
  encode_letter char code last = (code, last).
Proof. unfold encode_letter. now intros ->. Qed.

Lemma encode_letter_same (char : option jsstring) (code : jsstring) (last : value) :
  get soundexTable (to_string char) = Some last ->
  encode_letter char code last = (code, last).
Proof.
  unfold encode_letter. intros ->.
  destruct last as [|y]; simpl; [reflexivity|].
  rewrite str_eqb_refl. now destruct y.
Qed.

(** After a letter with a digit, the register holds that digit, appended or
    not. *)
Lemma encode_letter_register (c : jschar) (d code : jsstring) (last : value) :
  get soundexTable [c] = Some (Str d) ->
  exists code', encode_letter (Some [c]) code last = (code', Str d).
Proof.
  intros E. unfold encode_letter. simpl to_string. rewrite E.
  destruct (soundexTable_digit _ _ E) as (x & -> & _). simpl.
  destruct last as [|y]; simpl; [eauto|].
  destruct ([x] === y) eqn:Ey; simpl; [|eauto].
  apply str_eqb_eq in Ey. subst y. eauto.
Qed.

Lemma seed_digit (c : jschar) (d : jsstring) :
  get soundexTable [c] = Some (Str d) -> seed [c] = Str d.
Proof.
  intros E. unfold seed. rewrite E.
  now destruct (soundexTable_digit _ _ E) as (x & -> & _).
Qed.

End SoundexLetter.

(** ** Soundex: the loops *)

Section SoundexLoops.

Import Soundex.

Lemma skipn_nth_error {A : Type} (l : list A) :
  forall n a, nth_error l n = Some a -> skipn n l = a :: skipn (S n) l.
Proof.
  induction l as [|x l IH]; intros [|n] a; simpl; try discriminate.
  - now intros [= ->].
  - intros H. now rewrite (IH n a H).
Qed.

Lemma charAt_skipn (str : jsstring) (i : Z) :
  0 <= i < len str ->
  exists c, charAt str i = Some [c]
            /\ skipn (Z.to_nat i) str = c :: skipn (Z.to_nat (i + 1)) str.
Proof.
  intros Hi. unfold charAt.
  replace (i <? 0) with false by (symmetry; apply Z.ltb_ge; lia).
  destruct (nth_error str (Z.to_nat i)) as [c|] eqn:E.
  - exists c. split; [reflexivity|].
    replace (Z.to_nat (i + 1)) with (S (Z.to_nat i)) by lia.
    now apply skipn_nth_error.
  - apply nth_error_None in E. unfold len in Hi. lia.
Qed.

Lemma scan_full (letters : list jschar) (code : jsstring) (last : value) :
  (len code <? 4) = false -> scan letters code last = (code, last).
Proof. intros H. destruct letters; simpl; [reflexivity | now rewrite H]. Qed.

(** The loop of lines 60-70 visits the letters from [str[i]] on. *)
Lemma loop_scan (str : jsstring) (fuel : nat) :
  forall st st', 0 <= i st ->
  while_ fuel (loop_cond str) (loop_body str) st = Some st' ->
  (soundexCode st', lastCode st')
  = scan (skipn (Z.to_nat (i st)) str) (soundexCode st) (lastCode st).
Proof.
  induction fuel as [|n IH]; intros st st' Hi; simpl;
    destruct (loop_cond str st) eqn:Hc; try discriminate.
  - intros [= <-]. symmetry. apply andb_false_iff in Hc as [Hc | Hc].
    + apply Z.ltb_ge in Hc. rewrite skipn_all2; [reflexivity | unfold len in Hc; lia].
    + now apply scan_full.
  - apply andb_true_iff in Hc as [H1 H2]. apply Z.ltb_lt in H1.
    destruct (charAt_skipn str (i st) (conj Hi H1)) as (c & Hch & Hsk).
    intros Hw. apply IH in Hw.
    + rewrite Hw, Hsk. simpl scan. rewrite H2.
      unfold loop_body. rewrite Hch.
      now destruct (encode_letter (Some [c]) (soundexCode st) (lastCode st)).
    + unfold loop_body.
      destruct (encode_letter _ _ _). simpl. lia.
  - intros [= <-]. symmetry. apply andb_false_iff in Hc as [Hc | Hc].
    + apply Z.ltb_ge in Hc. rewrite skipn_all2; [reflexivity | unfold len in Hc; lia].
    + now apply scan_full.
Qed.

Lemma loop_stops (str : jsstring) (fuel : nat) (st : lstate) :
  (Z.to_nat (len str - i st) <= fuel)%nat ->
  exists st', while_ fuel (loop_cond str) (loop_body str) st = Some st'.
Proof.
  apply (while_terminates _ _ (fun st => Z.to_nat (len str - i st))).
  intros s Hc. unfold loop_cond in Hc. apply andb_true_iff in Hc as [Hc _].
  apply Z.ltb_lt in Hc. unfold loop_body.
  destruct (encode_letter _ _ _). simpl. lia.
Qed.

Lemma encode_fuel_scan (first : jschar) (rest : list jschar) (fuel : nat) :
  (length rest <= fuel)%nat ->
  exists st, encode_fuel fuel (first :: rest) first = Some st
             /\ (soundexCode st, lastCode st) = scan rest [first] (seed [first]).
Proof.
  intros Hf. unfold encode_fuel.
  destruct (loop_stops (first :: rest) fuel (init first)) as [st Hst].
  { unfold len, init; simpl i. simpl length. lia. }
  exists st. split; [exact Hst|].
  apply loop_scan in Hst; [exact Hst | simpl; lia].
Qed.

(** Lines 73-75 pad to four characters. *)
Lemma pad_stops (fuel : nat) :
  forall code, (4 - length code <= fuel)%nat ->
  while_ fuel pad_cond pad_body code = Some (code ++ repeat 48 (4 - length code)).
Proof.
  induction fuel as [|n IH]; intros code Hf; cbn [while_];
    destruct (pad_cond code) eqn:Hc; unfold pad_cond, len in Hc.
  - apply Z.ltb_lt in Hc. lia.
  - apply Z.ltb_ge in Hc. replace (4 - length code)%nat with 0%nat by lia.
    simpl. now rewrite app_nil_r.
  - apply Z.ltb_lt in Hc. unfold pad_body. change (lit "0") with [48].
    rewrite IH by (rewrite length_app; simpl length; lia).
    rewrite length_app. simpl length.
    replace (4 - length code)%nat with (S (4 - (length code + 1)))%nat by lia.
    cbn [repeat]. now rewrite <- app_assoc.
  - apply Z.ltb_ge in Hc. replace (4 - length code)%nat with 0%nat by lia.
    simpl. now rewrite app_nil_r.
Qed.

(** [soundex] on a cleaned-up string, in closed form. *)
Lemma soundex_clean_scan (first : jschar) (rest : list jschar) :
  let code := fst (scan rest [first] (seed [first])) in
  soundex_unpadded (first :: rest) = code
  /\ soundex_clean (first :: rest) = code ++ repeat 48 (4 - length code).
Proof.
  intros code. split.
  - unfold soundex_unpadded.
    destruct (encode_fuel_scan first rest (length (first :: rest))) as (st & -> & Hst).
    { simpl. lia. }
    subst code. now rewrite <- Hst.
  - unfold soundex_clean, soundex_clean_fuel.
    destruct (encode_fuel_scan first rest (length (first :: rest) + 3)) as (st & -> & Hst).
    { simpl. lia. }
    rewrite pad_stops by (simpl length; lia).
    subst code. now rewrite <- Hst.
Qed.

(** The letters visited add digits to the code, each differing from the
    one before it, and never make it longer than four characters. *)
Lemma scan_shape (letters : list jschar) :
  forall code last, len code <= 4 ->
  exists digits,
    fst (scan letters code last) = code ++ digits
    /\ len (code ++ digits) <= 4
    /\ Forall (fun d => 49 <= d <= 54) digits
    /\ collapsed last digits.
Proof.
  induction letters as [|c letters IH]; intros code last Hlen; simpl.
  - exists []. rewrite app_nil_r. simpl. auto.
  - destruct (len code <? 4) eqn:E.
    + apply Z.ltb_lt in E.
      destruct (encode_letter_cases (Some [c]) code last)
        as [-> | (d & Hd & _ & Hneq & ->)].
      * now apply IH.
      * destruct (IH (code ++ [d]) (Str [d])) as (ds & H1 & H2 & H3 & H4).
        { rewrite len_app. change (len [d]) with 1. lia. }
        exists (d :: ds). rewrite <- app_assoc in H1, H2. simpl in H1, H2.
        simpl. auto.
    + exists []. rewrite app_nil_r. simpl. auto.
Qed.

Lemma scan_app (a b : list jschar) :
  forall code last,
  scan (a ++ b) code last
  = scan b (fst (scan a code last)) (snd (scan a code last)).
Proof.
  induction a as [|c a IH]; intros code last; simpl; [reflexivity|].
  destruct (len code <? 4) eqn:E.
  - destruct (encode_letter (Some [c]) code last) as [code' last']. apply IH.
  - simpl. now rewrite scan_full.
Qed.

Lemma scan_skip_no_digit (vs letters : list jschar) :
  Forall (fun v => value_truthy (get soundexTable [v]) = false) vs ->
  forall code last, scan (vs ++ letters) code last = scan letters code last.
Proof.
  induction 1 as [|v vs Hv _ IH]; intros code last; simpl; [reflexivity|].
  destruct (len code <? 4) eqn:E.
  - rewrite encode_letter_no_digit by exact Hv. apply IH.
  - now rewrite scan_full.
Qed.

Lemma scan_skip_same (c : jschar) (letters : list jschar) (code : jsstring) (last : value) :
  get soundexTable [c] = Some last ->
  scan (c :: letters) code last = scan letters code last.
Proof.
  intros H. simpl. destruct (len code <? 4) eqn:E.
  - now rewrite encode_letter_same.
  - now rewrite scan_full.
Qed.

(** A consonant of the group of an earlier one is skipped when only
    letters without a digit stand between the two. *)
Lemma scan_collapse (c1 c2 : jschar) (d : jsstring) (vs rest : list jschar)
    (code : jsstring) (last : value) :
  get soundexTable [c1] = Some (Str d) ->
  get soundexTable [c2] = Some (Str d) ->
  Forall (fun v => value_truthy (get soundexTable [v]) = false) vs ->
  scan (c1 :: vs ++ c2 :: rest) code last = scan (c1 :: rest) code last.
Proof.
  intros H1 H2 Hvs. simpl. destruct (len code <? 4); [|reflexivity].
  destruct (encode_letter_register c1 d code last H1) as (code' & ->).
  rewrite scan_skip_no_digit by exact Hvs.
  now apply scan_skip_same.
Qed.

End SoundexLoops.

(** ** Soundex: the code *)

Section SoundexCode.

Import Soundex.

Variable toUpperCase : jsstring -> jsstring.

Lemma filter_no_match {A : Type} (f : A -> bool) (l : list A) :
  existsb f l = false -> filter f l = [].
Proof.
  induction l as [|x l IH]; simpl; [reflexivity|].
  destruct (f x); simpl; [discriminate | exact IH].
Qed.

Lemma filter_match {A : Type} (f : A -> bool) (l : list A) :
  existsb f l = true -> exists x rest, filter f l = x :: rest /\ f x = true.
Proof.
  intros H. apply existsb_exists in H as (x & Hx & Hf).
  assert (Hin : In x (filter f l)) by (apply filter_In; auto).
  destruct (filter f l) as [|y rest] eqn:E; [destruct Hin|].
  exists y, rest. split; [reflexivity|].
  assert (Hy : In y (filter f l)) by (rewrite E; now left).
  now apply filter_In in Hy.
Qed.

(** The code of a cleaned-up string [first :: rest]: the first letter, the
    collapsed digits, and zeros up to four characters. *)
Lemma soundex_clean_shape (first : jschar) (rest : list jschar) :
  exists digits,
    soundex_unpadded (first :: rest) = first :: digits
    /\ soundex_clean (first :: rest) = (first :: digits) ++ repeat 48 (3 - length digits)
    /\ (length digits <= 3)%nat
    /\ Forall (fun d => 49 <= d <= 54) digits
    /\ collapsed (seed [first]) digits.
Proof.
  destruct (soundex_clean_scan first rest) as [Hu Hc].
  destruct (scan_shape rest [first] (seed [first])) as (digits & H1 & H2 & H3 & H4).
  { now vm_compute. }
  exists digits. rewrite Hu, Hc, H1. simpl.
  repeat split; try assumption.
  unfold len in H2. simpl in H2. lia.
Qed.

(** C3: when the text has at least one letter A-Z after upper-casing,
    [soundex(text)] has exactly four characters: the first such letter and
    three characters 0 to 6 (digits of the table, then zeros); when it has
    none, [soundex(text)] is the empty string. *)
Theorem soundex_length (text : jsstring) :
  (existsb isAZ (toUpperCase text) = true ->
   len (soundex toUpperCase text) = 4
   /\ exists first a b c,
        hd_error (normalize toUpperCase text) = Some first
        /\ isAZ first = true
        /\ soundex toUpperCase text = [first; a; b; c]
        /\ Forall (fun d => 48 <= d <= 54) [a; b; c])
  /\ (existsb isAZ (toUpperCase text) = false -> soundex toUpperCase text = []).
Proof.
  unfold soundex, normalize. split; intros H.
  - apply filter_match in H as (first & rest & -> & Hf).
    destruct (soundex_clean_shape first rest) as (digits & _ & -> & Hl & Hd & _).
    assert (Hw : forall d, 49 <= d <= 54 -> 48 <= d <= 54) by (intros; lia).
    destruct digits as [|a [|b [|c [|e digits]]]]; simpl in Hl; try lia;
      (split; [reflexivity|]); simpl;
      repeat match goal with
             | H : Forall _ (_ :: _) |- _ => inversion H; subst; clear H
             end;
      do 4 eexists; (split; [reflexivity|]); (split; [exact Hf|]);
      (split; [reflexivity|]);
      repeat constructor; auto; lia.
  - now rewrite filter_no_match.
Qed.

Lemma collapsed_adjacent (digits : list jschar) :
  forall last, collapsed last digits ->
  forall n a b, nth_error digits n = Some a -> nth_error digits (S n) = Some b -> a <> b.
Proof.
  induction digits as [|d digits IH]; intros last Hc n a b Ha Hb.
  - destruct n; discriminate.
  - destruct Hc as [_ Hc]. destruct n as [|n].
    + injection Ha as <-. destruct digits as [|e digits]; [discriminate|].
      injection Hb as <-. destruct Hc as [Hne _]. congruence.
    + exact (IH _ Hc n a b Ha Hb).
Qed.

(** C5: in the code of [soundex(text)] as it is before the padding, no
    two consecutive digits are equal, and the first digit is not the digit
    of the group of the retained first letter. *)
Theorem soundex_collapses (text : jsstring) (first : jschar) (rest : list jschar) :
  normalize toUpperCase text = first :: rest ->
  exists digits,
    soundex_unpadded (normalize toUpperCase text) = first :: digits
    /\ soundex toUpperCase text = (first :: digits) ++ repeat 48 (3 - length digits)
    /\ (forall n a b,
          nth_error digits n = Some a -> nth_error digits (S n) = Some b -> a <> b)
    /\ (forall d, hd_error digits = Some d -> get soundexTable [first] <> Some (Str [d])).
Proof.
  intros Hn. unfold soundex. rewrite Hn.
  destruct (soundex_clean_shape first rest) as (digits & Hu & Hc & _ & _ & Hcol).
  exists digits. split; [exact Hu|]. split; [exact Hc|]. split.
  - exact (collapsed_adjacent digits _ Hcol).
  - intros d Hd E. destruct digits as [|d' digits]; [discriminate|].
    injection Hd as ->. destruct Hcol as [Hne _].
    apply Hne. symmetry. now apply seed_digit.
Qed.

(** C9: no letter without a digit resets the register.  The letters A, E,
    I, O, U, H, W and Y have no digit; a letter without a digit leaves the
    code and the register as they are, and so does a letter whose digit is
    the one in the register.  Hence a consonant of the group of an earlier
    consonant adds nothing to the code when only letters without a digit
    stand between the two: the text has the code it has without them. *)
Theorem soundex_register_kept :
  (forall c, In c (lit "AEIOUHWY") -> value_truthy (get soundexTable [c]) = false)
  /\ (forall c code last,
        value_truthy (get soundexTable [c]) = false ->
        encode_letter (Some [c]) code last = (code, last))
  /\ (forall c code last,
        get soundexTable [c] = Some last ->
        encode_letter (Some [c]) code last = (code, last))
  /\ (forall text pre c1 vs c2 rest d,
        normalize toUpperCase text = pre ++ c1 :: vs ++ c2 :: rest ->
        get soundexTable [c1] = Some (Str d) ->
        get soundexTable [c2] = Some (Str d) ->
        Forall (fun v => value_truthy (get soundexTable [v]) = false) vs ->
        soundex toUpperCase text = soundex_clean (pre ++ c1 :: rest)).
Proof.
  split; [|split; [|split]].
  - intros c Hc. simpl in Hc.
    repeat (destruct Hc as [<- | Hc]; [reflexivity|]). destruct Hc.
  - intros c code last. exact (encode_letter_no_digit (Some [c]) code last).
  - intros c code last. exact (encode_letter_same (Some [c]) code last).
  - intros text pre c1 vs c2 rest d Hn H1 H2 Hvs. unfold soundex. rewrite Hn.
    destruct pre as [|p pre]; simpl app.
    + destruct (soundex_clean_scan c1 (vs ++ c2 :: rest)) as [_ ->].
      destruct (soundex_clean_scan c1 rest) as [_ ->].
      rewrite (seed_digit c1 d H1).
      rewrite scan_skip_no_digit by exact Hvs.
      now rewrite scan_skip_same.
    + destruct (soundex_clean_scan p (pre ++ c1 :: vs ++ c2 :: rest)) as [_ ->].
      destruct (soundex_clean_scan p (pre ++ c1 :: rest)) as [_ ->].
      rewrite !(scan_app pre).
      now rewrite (scan_collapse c1 c2 d vs rest _ _ H1 H2 Hvs).
Qed.

End SoundexCode.

Lemma soundex_length_witness :
  len (Soundex.soundex toUpperCase_ascii (lit "Lee")) = 4
  /\ Soundex.soundex toUpperCase_ascii (lit "123") = [].
Proof.
  split.
  - exact (proj1 (proj1 (soundex_length toUpperCase_ascii (lit "Lee")) eq_refl)).
  - exact (proj2 (soundex_length toUpperCase_ascii (lit "123")) eq_refl).
Defined.

(** "Pfister": the F is of the group of the P and is dropped; the digits
    are 2, 3 and 6. *)
Lemma soundex_collapses_witness :
  Soundex.normalize toUpperCase_ascii (lit "Pfister") = 80 :: lit "FISTER"
  /\ exists digits,
      Soundex.soundex_unpadded (Soundex.normalize toUpperCase_ascii (lit "Pfister"))
      = 80 :: digits
      /\ Soundex.soundex toUpperCase_ascii (lit "Pfister")
         = (80 :: digits) ++ repeat 48 (3 - length digits)
      /\ (forall n a b,
            nth_error digits n = Some a -> nth_error digits (S n) = Some b -> a <> b)
      /\ (forall d, hd_error digits = Some d ->
                    Soundex.get Soundex.soundexTable [80] <> Some (Soundex.Str [d])).
Proof.
  split; [reflexivity|].
  exact (soundex_collapses toUpperCase_ascii (lit "Pfister") 80 (lit "FISTER") eq_refl).
Defined.

(** "Tymczak": the K is of the group of the Z, an A stands between them,
    and the code is the one of "Tymcz", T520. *)
Lemma soundex_register_kept_witness :
  Soundex.normalize toUpperCase_ascii (lit "Tymczak")
  = lit "TYMC" ++ 90 :: lit "A" ++ 75 :: lit ""
  /\ Soundex.soundex toUpperCase_ascii (lit "Tymczak") = lit "T520"
  /\ Soundex.soundex toUpperCase_ascii (lit "Tymczak")
     = Soundex.soundex_clean (lit "TYMC" ++ 90 :: lit "").
Proof.
  split; [reflexivity|]. split; [reflexivity|].
  apply (proj2 (proj2 (proj2 (soundex_register_kept toUpperCase_ascii)))
           (lit "Tymczak") (lit "TYMC") 90 (lit "A") 75 (lit "") (lit "2")).
  - reflexivity.
  - reflexivity.
  - reflexivity.
  - repeat constructor.
Defined.

(** * Further properties of the two encoders *)

(** ** Metaphone: the classifier *)

Section Classifier.

Import Metaphone.

Lemma letter_cases (c : jschar) :
  isAZ c = true -> exists n, (n < 26)%nat /\ c = 65 + Z.of_nat n.
Proof.
  unfold isAZ. intros H. apply andb_true_iff in H as [H1 H2].
  apply Z.leb_le in H1, H2. exists (Z.to_nat (c - 65)). lia.
Qed.

Lemma encode_outside (c : jschar) (rest : jsstring) :
  isAZ c = false -> encode (c :: rest) = 0.
Proof.
  unfold isAZ, encode. intros H. cbv zeta.
  destruct ((0 <=? c - 65) && (c - 65 <? 26)) eqn:E; [|reflexivity].
  apply andb_true_iff in E as [E1 E2]. apply Z.leb_le in E1. apply Z.ltb_lt in E2.
  apply andb_false_iff in H as [H | H];
    [apply Z.leb_gt in H | apply Z.leb_gt in H]; lia.
Qed.

(** The five classes of the character encoding array are the ones the
    comments of lines 43-47 name: AEIOU, FJLMNR, CGPST, EIY and BDH; the
    class of a string is the one of its first character, and a string that
    is empty or begins outside A-Z is in no class. *)
Theorem classifier_classes (c : jschar) (rest : jsstring) :
  (truthy (isVowel (c :: rest)) = true <-> In c (lit "AEIOU"))
  /\ (truthy (noChange (c :: rest)) = true <-> In c (lit "FJLMNR"))
  /\ (truthy (affectH (c :: rest)) = true <-> In c (lit "CGPST"))
  /\ (truthy (makeSoft (c :: rest)) = true <-> In c (lit "EIY"))
  /\ (truthy (noGhToF (c :: rest)) = true <-> In c (lit "BDH"))
  /\ (isAZ c = false -> encode (c :: rest) = 0)
  /\ encode [] = 0.
Proof.
  destruct (isAZ c) eqn:E.
  - destruct (letter_cases c E) as (n & Hn & ->).
    do 26 (destruct n as [|n];
           [vm_compute; intuition (try discriminate; try reflexivity)|]).
    lia.
  - unfold isVowel, noChange, affectH, makeSoft, noGhToF.
    rewrite (encode_outside c rest E).
    assert (Hout : forall l, In c l -> existsb isAZ l = true -> forallb isAZ l = true -> False).
    { intros l Hin _ Hall. rewrite forallb_forall in Hall.
      specialize (Hall c Hin). congruence. }
    repeat split; try discriminate; try reflexivity;
      intros Hin; exfalso; apply (Hout _ Hin); reflexivity.
Qed.

End Classifier.

(** ** Metaphone: texts without a letter, and reads outside the word *)

Section MetaphoneEdges.

Import Metaphone.

Variable toUpperCase : jsstring -> jsstring.

Lemma test_AZ_charAt (word : jsstring) (i : Z) :
  test_AZ (charAt word i) = true ->
  exists c, charAt word i = Some [c] /\ In c word /\ isAZ c = true.
Proof.
  destruct (charAt word i) as [x|] eqn:E; [|discriminate].
  destruct (charAt_In _ _ _ E) as (c & -> & Hin).
  unfold test_AZ. simpl. rewrite orb_false_r. eauto.
Qed.

Lemma no_letter_test (word : jsstring) (i : Z) :
  existsb isAZ word = false -> test_AZ (charAt word i) = false.
Proof.
  intros H. destruct (test_AZ (charAt word i)) eqn:E; [|reflexivity].
  apply test_AZ_charAt in E as (c & _ & Hin & Hc).
  assert (existsb isAZ word = true) by (apply existsb_exists; eauto).
  congruence.
Qed.

(** A text that has no letter A-Z after upper-casing, the empty text among
    them, has the empty code, whatever [maxPhonemes] is. *)
Theorem metaphone_no_letter (text : jsstring) (maxPhonemes : Z) :
  existsb isAZ (toUpperCase text) = false ->
  metaphone toUpperCase text maxPhonemes = [].
Proof.
  intros Hno. unfold metaphone, metaphone_fuel.
  destruct (skip_loop_stops (toUpperCase text) (len text) (length text))
    as (s0 & Hs0 & Hr0 & _).
  { unfold len. lia. }
  rewrite Hs0.
  apply (while_invariant _ _ (fun _ => True)) in Hs0 as [_ Hc]; auto.
  unfold skip_cond in Hc. rewrite (no_letter_test _ _ Hno) in Hc. simpl in Hc.
  apply Z.ltb_ge in Hc. apply Z.leb_le in Hc. now rewrite Hc.
Qed.

(** [lookAhead] never yields a letter from outside the word: past the end
    it is the string of the null character, before the beginning (the G rule
    looks three positions back) it is the empty string, and both are in no
    class of the classifier. *)
Theorem lookAhead_outside (word : jsstring) (w_idx how_far : Z) :
  (len word <= w_idx + how_far -> lookAhead toUpperCase word w_idx how_far = NUL)
  /\ (w_idx + how_far < 0 -> lookAhead toUpperCase word w_idx how_far = [])
  /\ (w_idx + how_far < 0 \/ len word <= w_idx + how_far ->
      encode (lookAhead toUpperCase word w_idx how_far) = 0
      /\ test_AZ (Some (lookAhead toUpperCase word w_idx how_far)) = false).
Proof.
  assert (H1 : len word <= w_idx + how_far ->
               lookAhead toUpperCase word w_idx how_far = NUL).
  { intros H. unfold lookAhead. cbv zeta.
    now replace (w_idx + how_far <? len word) with false
      by (symmetry; apply Z.ltb_ge; lia). }
  assert (H2 : w_idx + how_far < 0 ->
               lookAhead toUpperCase word w_idx how_far = []).
  { intros H. pose proof (len_nonneg word). unfold lookAhead, charAt. cbv zeta.
    replace (w_idx + how_far <? len word) with true
      by (symmetry; apply Z.ltb_lt; lia).
    now replace (w_idx + how_far <? 0) with true
      by (symmetry; apply Z.ltb_lt; lia). }
  split; [exact H1|]. split; [exact H2|].
  intros [H | H]; [rewrite (H2 H) | rewrite (H1 H)]; split; reflexivity.
Qed.

End MetaphoneEdges.

Lemma metaphone_no_letter_witness :
  Metaphone.metaphone toUpperCase_ascii (lit "12 34!") 3 = [].
Proof.
  apply (metaphone_no_letter toUpperCase_ascii (lit "12 34!") 3). reflexivity.
Defined.

Lemma lookAhead_outside_witness :
  Metaphone.lookAhead toUpperCase_ascii (lit "GHOST") 0 (-3) = []
  /\ Metaphone.lookAhead toUpperCase_ascii (lit "GHOST") 4 2 = Metaphone.NUL.
Proof.
  split.
  - apply (proj1 (proj2 (lookAhead_outside toUpperCase_ascii (lit "GHOST") 0 (-3)))).
    reflexivity.
  - apply (proj1 (lookAhead_outside toUpperCase_ascii (lit "GHOST") 4 2)).
    now vm_compute.
Defined.

(** ** Metaphone: the symbols of the code *)

Section MetaphoneSymbols.

Import Metaphone.

Variable toUpperCase : jsstring -> jsstring.

Lemma within_app (allowed a b : jsstring) :
  within allowed (a ++ b) = within allowed a && within allowed b.
Proof. apply forallb_app. Qed.

Lemma within_Forall (allowed s : jsstring) :
  within allowed s = true -> Forall (fun c => In c allowed) s.
Proof.
  unfold within. rewrite forallb_forall, Forall_forall. intros H c Hc.
  specialize (H c Hc). apply existsb_exists in H as (x & Hx & E).
  apply Z.eqb_eq in E. now subst.
Qed.

Lemma In_by_eqb (c : jschar) (l : jsstring) :
  existsb (Z.eqb c) l = true -> In c l.
Proof.
  intros H. apply existsb_exists in H as (x & Hx & E).
  apply Z.eqb_eq in E. now subst.
Qed.

Lemma noChange_later (curr : jsstring) :
  len curr <= 1 -> truthy (noChange curr) = true -> within later_symbols curr = true.
Proof.
  destruct curr as [|c [|d curr]]; intros Hl Ht.
  - discriminate.
  - destruct (isAZ c) eqn:E.
    + destruct (letter_cases c E) as (n & Hn & ->). revert Ht.
      do 26 (destruct n as [|n]; [vm_compute; congruence|]). lia.
    + unfold noChange in Ht. now rewrite encode_outside in Ht.
  - unfold len in Hl. simpl in Hl. lia.
Qed.

Lemma phonize_extends (base : jsstring) (m : Z) (c : jsstring) (s : state) :
  within later_symbols c = true -> extends base s -> extends base (phonize m c s).
Proof.
  intros Hc (e & He & Hw). unfold phonize.
  destruct (len (result s) <? m); [|now exists e].
  exists (e ++ c). simpl. rewrite He, app_assoc, within_app, Hw, Hc. auto.
Qed.

Lemma advance_extends (base : jsstring) (n : Z) (s : state) :
  extends base s -> extends base (advance n s).
Proof. trivial. Qed.

Lemma process_letter_extends (base word : jsstring) (mbl : Z)
    (curr prev next after : jsstring) (s : state) :
  len curr <= 1 -> extends base s ->
  extends base (process_letter toUpperCase word mbl curr prev next after s).
Proof.
  intros Hc Hs. unfold process_letter. split_ifs;
    repeat first [ exact Hs
                 | apply advance_extends
                 | apply phonize_extends;
                   [first [reflexivity | now apply noChange_later]|] ].
Qed.

Lemma first_letter_symbols (word : jsstring) (mbl : Z) (s : state) :
  result s = [] ->
  within first_symbols (result (first_letter toUpperCase word mbl s)) = true.
Proof.
  intros Hs. unfold first_letter. cbv zeta. split_ifs; rewrite ?result_advance;
    unfold phonize; rewrite Hs; split_ifs; cbn [result app]; rewrite ?Hs;
    try reflexivity.
  match goal with
  | H : (_ === lit "E") || _ || _ || _ = true |- _ =>
      rewrite !orb_true_iff, !str_eqb_eq in H;
      destruct H as [[[-> | ->] | ->] | ->]; reflexivity
  end.
Qed.

Hypothesis toUpperCase_stable :
  forall s c, In c (toUpperCase s) -> toUpperCase [c] = [c].

Lemma loop_body_extends (base text : jsstring) (mbl : Z) (s : state) :
  extends base s ->
  extends base (loop_body toUpperCase (toUpperCase text) mbl s).
Proof.
  intros Hs. unfold loop_body.
  destruct (negb (test_AZ _)); apply advance_extends; [exact Hs|].
  apply process_letter_extends; [|exact Hs].
  now apply currLetter_len.
Qed.

Lemma metaphone_fuel_symbols (fuel : nat) (text : jsstring) (k : Z) (r : jsstring) :
  metaphone_fuel toUpperCase fuel text k = Some r ->
  exists base e, r = base ++ e /\ len base <= 1
                 /\ within first_symbols base = true
                 /\ within later_symbols e = true.
Proof.
  unfold metaphone_fuel.
  set (mbl := if 0 <? k then k else len text).
  destruct (while_ fuel (skip_cond _ _) _ _) as [s0|] eqn:E0; [|discriminate].
  apply (while_invariant _ _ (fun s => result s = [])) in E0 as [Hr0 _];
    [| intros s Hr _; exact Hr | reflexivity].
  destruct (len text <=? w_idx s0).
  - intros [= <-]. exists [], []. rewrite Hr0. repeat split. now vm_compute.
  - set (s1 := first_letter toUpperCase (toUpperCase text) mbl s0).
    destruct (while_ fuel (loop_cond _ _) _ _) as [s|] eqn:E1; [|discriminate].
    intros [= <-].
    apply (while_invariant _ _ (extends (result s1))) in E1 as [(e & He & Hw) _].
    + exists (result s1), e. split; [exact He|]. split; [|split; [|exact Hw]].
      * pose proof (first_letter_grow toUpperCase (toUpperCase text) mbl s0) as H.
        fold s1 in H. rewrite Hr0 in H. exact H.
      * now apply first_letter_symbols.
    + intros s' Hs' _. now apply loop_body_extends.
    + exists []. now rewrite app_nil_r.
Qed.

(** The code is made of the symbols 0 (for TH), B, F, H, J, K, L, M, N, P,
    R, S, T, W, X (for SH) and Y, except that its first symbol can also be
    a vowel: the letters C, D, G, Q, V and Z never occur in a code, and a
    vowel occurs only in the first place. *)
Theorem metaphone_symbols (text : jsstring) (maxPhonemes : Z) :
  Forall (fun c => In c (lit "AEIOU0BFHJKLMNPRSTWXY"))
    (firstn 1 (metaphone toUpperCase text maxPhonemes))
  /\ Forall (fun c => In c (lit "0BFHJKLMNPRSTWXY"))
       (skipn 1 (metaphone toUpperCase text maxPhonemes)).
Proof.
  unfold metaphone.
  destruct (metaphone_fuel toUpperCase (length text) text maxPhonemes) as [r|] eqn:E;
    [|split; constructor].
  apply metaphone_fuel_symbols in E as (base & e & -> & Hl & Hb & He).
  assert (Hsub : forall l, within later_symbols l = true ->
                           within (lit "AEIOU0BFHJKLMNPRSTWXY") l = true).
  { intros l. unfold within. rewrite !forallb_forall. intros H c Hc.
    specialize (H c Hc). apply existsb_exists in H as (x & Hx & Ex).
    apply existsb_exists. exists x. split; [|exact Ex].
    change (In x (lit "AEIOU" ++ later_symbols)). apply in_or_app. now right. }
  destruct base as [|h [|h' base]].
  - cbn [app]. rewrite <- (firstn_skipn 1 e), within_app in He.
    apply andb_true_iff in He as [He1 He2].
    split; apply within_Forall; [now apply Hsub | exact He2].
  - cbn [app firstn skipn]. split; [|now apply within_Forall].
    constructor; [|constructor].
    apply within_Forall in Hb. inversion Hb as [|? ? Hx _]; subst.
    unfold first_symbols in Hx. cbn [lit list_ascii_of_string map] in Hx.
    repeat (destruct Hx as [<- | Hx]; [apply In_by_eqb; reflexivity|]).
    destruct Hx.
  - unfold len in Hl. simpl in Hl. lia.
Qed.

End MetaphoneSymbols.

(** "Zhivago" begins with a consonant, so no vowel is in its code. *)
Lemma metaphone_symbols_witness :
  Metaphone.metaphone toUpperCase_ascii (lit "Zhivago") 0 = lit "SHK"
  /\ Forall (fun c => In c (lit "0BFHJKLMNPRSTWXY"))
       (skipn 1 (Metaphone.metaphone toUpperCase_ascii (lit "Zhivago") 0)).
Proof.
  split; [reflexivity|].
  exact (proj2 (metaphone_symbols toUpperCase_ascii toUpperCase_ascii_stable
                  (lit "Zhivago") 0)).
Defined.

(** ** Metaphone: a cap truncates the code *)

Section MetaphoneTruncation.

Import Metaphone.

Variable toUpperCase : jsstring -> jsstring.

(** Two runs on the same word, the first with the smaller buffer: the
    cursors agree and the first result is the second one cut to the size of
    the first buffer. *)
Variables m1 m2 : Z.
Hypothesis buffers : m1 <= m2.

Lemma phonize_cut (c : jsstring) (s1 s2 : state) :
  len c <= 1 -> cut m1 s1 s2 -> cut m1 (phonize m1 c s1) (phonize m2 c s2).
Proof.
  intros Hc [Hw Hr]. split; [now rewrite !w_idx_phonize|].
  destruct s1 as [r1 w1], s2 as [r2 w2]. unfold phonize, len in *.
  cbn [result w_idx] in *. subst r1.
  destruct (Nat.lt_ge_cases (length r2) (Z.to_nat m1)) as [Hlt | Hge].
  - rewrite firstn_all2 by lia.
    replace (Z.of_nat (length r2) <? m1) with true
      by (symmetry; apply Z.ltb_lt; lia).
    replace (Z.of_nat (length r2) <? m2) with true
      by (symmetry; apply Z.ltb_lt; lia).
    cbn [result]. rewrite firstn_all2; [reflexivity | rewrite length_app; lia].
  - rewrite length_firstn, Nat.min_l by exact Hge.
    replace (Z.of_nat (Z.to_nat m1) <? m1) with false
      by (symmetry; apply Z.ltb_ge; lia).
    destruct (Z.of_nat (length r2) <? m2); cbn [result]; [|reflexivity].
    rewrite firstn_app. replace (Z.to_nat m1 - length r2)%nat with 0%nat by lia.
    cbn [firstn]. now rewrite app_nil_r.
Qed.

Lemma advance_cut (n : Z) (s1 s2 : state) :
  cut m1 s1 s2 -> cut m1 (advance n s1) (advance n s2).
Proof. intros [Hw Hr]. split; simpl; [now rewrite Hw | exact Hr]. Qed.

Ltac one_symbol :=
  first [ now vm_compute | now apply vowel_case_len | assumption ].

Ltac cut_steps Hs :=
  repeat first [ exact Hs
               | apply advance_cut
               | apply phonize_cut; [one_symbol|] ].

Lemma process_letter_cut (word curr prev next after : jsstring) (s1 s2 : state) :
  len curr <= 1 -> cut m1 s1 s2 ->
  cut m1 (process_letter toUpperCase word m1 curr prev next after s1)
      (process_letter toUpperCase word m2 curr prev next after s2).
Proof.
  intros Hc Hs. unfold process_letter. rewrite (proj1 Hs).
  split_ifs; cut_steps Hs.
Qed.

Lemma first_letter_cut (word : jsstring) (s1 s2 : state) :
  cut m1 s1 s2 ->
  cut m1 (first_letter toUpperCase word m1 s1) (first_letter toUpperCase word m2 s2).
Proof.
  intros Hs. unfold first_letter. rewrite (proj1 Hs). cbv zeta.
  split_ifs; cut_steps Hs.
Qed.

Hypothesis toUpperCase_stable :
  forall s c, In c (toUpperCase s) -> toUpperCase [c] = [c].

Lemma loop_body_cut (text : jsstring) (s1 s2 : state) :
  cut m1 s1 s2 ->
  cut m1 (loop_body toUpperCase (toUpperCase text) m1 s1)
      (loop_body toUpperCase (toUpperCase text) m2 s2).
Proof.
  intros Hs. unfold loop_body. rewrite (proj1 Hs).
  destruct (negb (test_AZ _)); apply advance_cut; [exact Hs|].
  apply process_letter_cut; [|exact Hs].
  now apply currLetter_len.
Qed.

(** The first run stops when its buffer is full, the second one when its
    own is, or not before the end of the word. *)
Variables wordLen k2 : Z.
Hypothesis first_cap : 0 < m1.
Hypothesis second_cap : k2 = 0 \/ k2 = m2.

Lemma first_run_stopped (text : jsstring) (fuel : nat) (s1 s2 f2 : state) :
  cut m1 s1 s2 -> loop_cond wordLen m1 s1 = false ->
  while_ fuel (loop_cond wordLen k2) (loop_body toUpperCase (toUpperCase text) m2) s2
  = Some f2 ->
  result s1 = firstn (Z.to_nat m1) (result f2).
Proof.
  intros [Hw Hr] C1 H2. unfold loop_cond in C1. rewrite Hw in C1.
  destruct (w_idx s2 <? wordLen) eqn:Cw; simpl in C1.
  - apply orb_false_iff in C1 as [_ C1]. apply Z.ltb_ge in C1.
    apply (while_invariant _ _ (extends (result s2))) in H2 as [(e & He & _) _].
    + rewrite He, firstn_app.
      unfold len in C1. rewrite Hr, length_firstn in C1.
      replace (Z.to_nat m1 - length (result s2))%nat with 0%nat by lia.
      cbn [firstn]. rewrite app_nil_r. exact Hr.
    + intros s' Hs' _. now apply loop_body_extends.
    + exists []. now rewrite app_nil_r.
  - rewrite while_not_entered in H2 by (unfold loop_cond; now rewrite Cw).
    now injection H2 as <-.
Qed.

Lemma second_run_stopped (s1 s2 : state) :
  cut m1 s1 s2 -> loop_cond wordLen k2 s2 = false -> loop_cond wordLen m1 s1 = false.
Proof.
  intros [Hw Hr] C2. unfold loop_cond in *. rewrite Hw.
  destruct (w_idx s2 <? wordLen); simpl in *; [|reflexivity].
  apply orb_false_iff in C2 as [C2 C3].
  apply Z.eqb_neq in C2. apply Z.ltb_ge in C3.
  apply orb_false_iff. split; [apply Z.eqb_neq; lia|].
  apply Z.ltb_ge. unfold len in *. rewrite Hr, length_firstn. lia.
Qed.

Lemma loop_cut (text : jsstring) (fuel : nat) :
  forall s1 s2 f1 f2, cut m1 s1 s2 ->
  while_ fuel (loop_cond wordLen m1) (loop_body toUpperCase (toUpperCase text) m1) s1
  = Some f1 ->
  while_ fuel (loop_cond wordLen k2) (loop_body toUpperCase (toUpperCase text) m2) s2
  = Some f2 ->
  result f1 = firstn (Z.to_nat m1) (result f2).
Proof.
  induction fuel as [|n IH]; intros s1 s2 f1 f2 Hs H1 H2;
    destruct (loop_cond wordLen m1 s1) eqn:C1.
  - cbn [while_] in H1. rewrite C1 in H1. discriminate.
  - rewrite while_not_entered in H1 by exact C1. injection H1 as <-.
    exact (first_run_stopped text _ _ _ _ Hs C1 H2).
  - destruct (loop_cond wordLen k2 s2) eqn:C2.
    + cbn [while_] in H1, H2. rewrite C1 in H1. rewrite C2 in H2.
      eapply IH; [|exact H1|exact H2]. now apply loop_body_cut.
    + rewrite (second_run_stopped _ _ Hs C2) in C1. discriminate.
  - rewrite while_not_entered in H1 by exact C1. injection H1 as <-.
    exact (first_run_stopped text _ _ _ _ Hs C1 H2).
Qed.

End MetaphoneTruncation.

Section MetaphoneCaps.

Import Metaphone.

Variable toUpperCase : jsstring -> jsstring.

Hypothesis toUpperCase_stable :
  forall s c, In c (toUpperCase s) -> toUpperCase [c] = [c].

Lemma metaphone_cut (text : jsstring) (k1 k2 : Z) :
  0 < k1 -> 0 <= k2 -> k1 <= (if 0 <? k2 then k2 else len text) ->
  metaphone toUpperCase text k1
  = firstn (Z.to_nat k1) (metaphone toUpperCase text k2).
Proof.
  intros H1 H2 Hle. unfold metaphone.
  destruct (metaphone_fuel_stops toUpperCase text k1 (length text) (le_n _)) as [r1 E1].
  destruct (metaphone_fuel_stops toUpperCase text k2 (length text) (le_n _)) as [r2 E2].
  rewrite E1, E2. unfold metaphone_fuel in E1, E2.
  replace (0 <? k1) with true in E1 by (symmetry; apply Z.ltb_lt; lia).
  set (m2 := if 0 <? k2 then k2 else len text) in *.
  destruct (while_ _ (skip_cond _ _) _ _) as [s0|] eqn:E0; [|discriminate].
  apply (while_invariant _ _ (fun s => result s = [])) in E0 as [Hr0 _];
    [| intros s Hr _; exact Hr | reflexivity].
  destruct (len text <=? w_idx s0).
  - injection E1 as <-. injection E2 as <-. rewrite Hr0. now destruct (Z.to_nat k1).
  - destruct (while_ _ (loop_cond _ k1) _ _) as [f1|] eqn:L1; [|discriminate].
    destruct (while_ _ (loop_cond _ k2) _ _) as [f2|] eqn:L2; [|discriminate].
    injection E1 as <-. injection E2 as <-.
    refine (loop_cut toUpperCase k1 m2 Hle toUpperCase_stable (len text) k2 H1 _
              text (length text) _ _ f1 f2 _ L1 L2).
    + subst m2. destruct (0 <? k2) eqn:E; [now right | left].
      apply Z.ltb_ge in E. lia.
    + apply first_letter_cut; [exact Hle|].
      split; [reflexivity|]. rewrite Hr0. now destruct (Z.to_nat k1).
Qed.

(** A code capped at [k] symbols is the beginning of the code capped at any
    larger number: the first [k] symbols of it. *)
Theorem metaphone_cap_prefix (text : jsstring) (k k' : Z) :
  0 < k -> k <= k' ->
  metaphone toUpperCase text k = firstn (Z.to_nat k) (metaphone toUpperCase text k').
Proof.
  intros Hk Hk'. apply metaphone_cut; try lia.
  replace (0 <? k') with true by (symmetry; apply Z.ltb_lt; lia). exact Hk'.
Qed.

(** With [maxPhonemes = 0] the code is the one capped at the length of the
    text, and a code capped at a smaller [k > 0] is the first [k] symbols
    of it. *)
Theorem metaphone_cap_of_uncapped (text : jsstring) (k : Z) :
  0 < k -> k <= len text ->
  metaphone toUpperCase text k = firstn (Z.to_nat k) (metaphone toUpperCase text 0)
  /\ metaphone toUpperCase text (len text) = metaphone toUpperCase text 0.
Proof.
  intros Hk Hl. split.
  - apply metaphone_cut; simpl; lia.
  - rewrite (metaphone_cut text (len text) 0) by (simpl; lia).
    apply firstn_all2.
    pose proof (metaphone_buffer toUpperCase toUpperCase_stable text 0) as H.
    simpl in H. unfold len in *. lia.
Qed.

End MetaphoneCaps.

(** "Thompson" capped at three and at two symbols. *)
Lemma metaphone_cap_prefix_witness :
  Metaphone.metaphone toUpperCase_ascii (lit "Thompson") 3 = lit "0MP"
  /\ Metaphone.metaphone toUpperCase_ascii (lit "Thompson") 2
     = firstn (Z.to_nat 2) (Metaphone.metaphone toUpperCase_ascii (lit "Thompson") 3).
Proof.
  split; [reflexivity|].
  apply (metaphone_cap_prefix toUpperCase_ascii toUpperCase_ascii_stable
           (lit "Thompson") 2 3); lia.
Defined.

Lemma metaphone_cap_of_uncapped_witness :
  Metaphone.metaphone toUpperCase_ascii (lit "Knight") 2
  = firstn (Z.to_nat 2) (Metaphone.metaphone toUpperCase_ascii (lit "Knight") 0)
  /\ Metaphone.metaphone toUpperCase_ascii (lit "Knight") (len (lit "Knight"))
     = Metaphone.metaphone toUpperCase_ascii (lit "Knight") 0.
Proof.
  apply (metaphone_cap_of_uncapped toUpperCase_ascii toUpperCase_ascii_stable
           (lit "Knight") 2); [lia | now vm_compute].
Defined.

(** ** Metaphone: the code and the letters of the text *)

Section MetaphoneWeight.

Import Metaphone.

Variable toUpperCase : jsstring -> jsstring.

Lemma letter_weight_bounds (c : jschar) :
  0 <= letter_weight c <= 2 * (if isAZ c then 1 else 0).
Proof. unfold letter_weight. destruct (isAZ c), ([c] === lit "X"); lia. Qed.

Lemma weight_app (a b : jsstring) : weight (a ++ b) = weight a + weight b.
Proof. induction a as [|c a IH]; simpl; lia. Qed.

Lemma weight_nonneg (s : jsstring) : 0 <= weight s.
Proof.
  induction s as [|c s IH]; simpl; [lia|].
  pose proof (letter_weight_bounds c). lia.
Qed.

Lemma weight_firstn (n : nat) (s : jsstring) : weight (firstn n s) <= weight s.
Proof.
  rewrite <- (firstn_skipn n s) at 2. rewrite weight_app.
  pose proof (weight_nonneg (skipn n s)). lia.
Qed.

Lemma weight_firstn_mono (n m : nat) (s : jsstring) :
  (n <= m)%nat -> weight (firstn n s) <= weight (firstn m s).
Proof.
  intros H. replace (firstn n s) with (firstn n (firstn m s)).
  - apply weight_firstn.
  - rewrite firstn_firstn. now rewrite Nat.min_l.
Qed.

Lemma firstn_S_nth_error {A : Type} (l : list A) :
  forall n a, nth_error l n = Some a -> firstn (S n) l = firstn n l ++ [a].
Proof.
  induction l as [|x l IH]; intros [|n] a; simpl; try discriminate.
  - now intros [= ->].
  - intros H. now rewrite <- (IH n a H).
Qed.

Lemma weight_next (word : jsstring) (i : Z) (c : jschar) :
  0 <= i -> charAt word i = Some [c] ->
  weight (firstn (Z.to_nat (i + 1)) word)
  = weight (firstn (Z.to_nat i) word) + letter_weight c.
Proof.
  intros Hi. unfold charAt.
  replace (i <? 0) with false by (symmetry; apply Z.ltb_ge; lia).
  destruct (nth_error word (Z.to_nat i)) as [x|] eqn:E; [|discriminate].
  intros [= ->]. replace (Z.to_nat (i + 1)) with (S (Z.to_nat i)) by lia.
  rewrite (firstn_S_nth_error _ _ _ E), weight_app. simpl. lia.
Qed.

(** Only the X rule emits two symbols. *)
Lemma process_letter_grow (word : jsstring) (mbl : Z)
    (curr prev next after : jsstring) (s : state) :
  len curr <= 1 ->
  len (result (process_letter toUpperCase word mbl curr prev next after s))
  <= len (result s) + (if curr === lit "X" then 2 else 1).
Proof.
  intros Hc. unfold process_letter. split_ifs; rewrite ?result_advance;
    try lia;
    try (match goal with
         | |- context [phonize ?m ?c (phonize ?m' ?c' s)] =>
             pose proof (phonize_grow m' c' s ltac:(now vm_compute));
             pose proof (phonize_grow m c (phonize m' c' s) ltac:(now vm_compute))
         | |- context [phonize ?m ?c s] =>
             pose proof (phonize_grow m c s
                           ltac:(first [now vm_compute | assumption]))
         end; lia).
Qed.

Lemma first_letter_emits (word : jsstring) (mbl : Z) (s : state) :
  result s = [] ->
  result (first_letter toUpperCase word mbl s) = []
  \/ (w_idx s + 1 <= w_idx (first_letter toUpperCase word mbl s)
      /\ len (result (first_letter toUpperCase word mbl s)) <= 1).
Proof.
  intros Hs.
  pose proof (first_letter_grow toUpperCase word mbl s) as Hg. rewrite Hs in Hg.
  revert Hg. unfold first_letter. cbv zeta. split_ifs;
    rewrite ?w_idx_advance, ?w_idx_phonize; auto; intros Hg; right;
    (split; [lia | exact Hg]).
Qed.

Hypothesis toUpperCase_stable :
  forall s c, In c (toUpperCase s) -> toUpperCase [c] = [c].

Lemma loop_body_pays (text : jsstring) (mbl : Z) (s : state) :
  len (result (loop_body toUpperCase (toUpperCase text) mbl s))
  <= len (result s)
     + match charAt (toUpperCase text) (w_idx s) with
       | Some x => weight x
       | None => 0
       end.
Proof.
  unfold loop_body.
  destruct (charAt (toUpperCase text) (w_idx s)) as [x|] eqn:E.
  - destruct (charAt_In _ _ _ E) as (c & -> & Hin).
    cbn [convertRaw weight]. rewrite (toUpperCase_stable text c Hin).
    pose proof (letter_weight_bounds c) as Hb.
    match goal with
    | |- context [if ?b then _ else _] => destruct b eqn:T
    end; rewrite result_advance; [lia|].
    match goal with
    | |- context [process_letter ?u ?w ?m ?cu ?p ?nx ?a s] =>
        pose proof (process_letter_grow w m cu p nx a s ltac:(now vm_compute)) as Hg
    end.
    assert (Hl : letter_weight c = if [c] === lit "X" then 2 else 1).
    { unfold letter_weight. unfold test_AZ in T. simpl in T.
      rewrite orb_false_r in T. apply negb_false_iff in T. now rewrite T. }
    lia.
  - cbn [convertRaw].
    change (negb (test_AZ (Some []))) with true. cbv iota.
    rewrite result_advance. lia.
Qed.

Lemma loop_body_paid (text : jsstring) (mbl : Z) (s : state) :
  paid (toUpperCase text) s ->
  paid (toUpperCase text) (loop_body toUpperCase (toUpperCase text) mbl s).
Proof.
  intros [Hw Hr]. set (word := toUpperCase text) in *.
  pose proof (loop_body_w_idx toUpperCase word mbl s) as Hs. cbv zeta in Hs.
  pose proof (loop_body_pays text mbl s) as Hp. fold word in Hp.
  split; [lia|].
  assert (Hmono : weight (firstn (Z.to_nat (w_idx s + 1)) word)
                  <= weight (firstn (Z.to_nat (w_idx (loop_body toUpperCase word mbl s))) word)).
  { apply weight_firstn_mono. lia. }
  destruct (charAt word (w_idx s)) as [x|] eqn:E.
  - destruct (charAt_In _ _ _ E) as (c & -> & _).
    pose proof (weight_next word (w_idx s) c Hw E) as Hn.
    cbn [weight] in Hp. lia.
  - pose proof (weight_firstn_mono (Z.to_nat (w_idx s)) (Z.to_nat (w_idx s + 1)) word).
    lia.
Qed.

Lemma metaphone_fuel_weight (fuel : nat) (text : jsstring) (k : Z) (r : jsstring) :
  metaphone_fuel toUpperCase fuel text k = Some r ->
  len r <= weight (toUpperCase text).
Proof.
  unfold metaphone_fuel.
  set (mbl := if 0 <? k then k else len text). set (word := toUpperCase text).
  destruct (while_ fuel (skip_cond _ _) _ _) as [s0|] eqn:E0; [|discriminate].
  pose proof E0 as E0'.
  apply (while_invariant _ _ (fun s => result s = [] /\ 0 <= w_idx s)) in E0'
    as [[Hr0 Hw0] Hc0];
    [| intros s [Hr Hw] _; rewrite result_advance, w_idx_advance; split; [exact Hr | lia]
     | simpl; split; [reflexivity | lia] ].
  destruct (len text <=? w_idx s0) eqn:El.
  - intros [= <-]. rewrite Hr0. apply weight_nonneg.
  - apply Z.leb_gt in El.
    destruct (while_ fuel (loop_cond _ _) _ _) as [s|] eqn:E1; [|discriminate].
    intros [= <-].
    apply (while_invariant _ _ (paid word)) in E1 as [[_ H] _].
    + etransitivity; [exact H | apply weight_firstn].
    + intros s' Hs' _. now apply loop_body_paid.
    + unfold skip_cond in Hc0.
      replace (w_idx s0 <? len text) with true in Hc0
        by (symmetry; apply Z.ltb_lt; lia).
      rewrite andb_true_r in Hc0. apply negb_false_iff in Hc0.
      apply test_AZ_charAt in Hc0 as (c & Hch & _ & Hc).
      pose proof (weight_next word (w_idx s0) c Hw0 Hch) as Hn.
      pose proof (weight_nonneg (firstn (Z.to_nat (w_idx s0)) word)).
      assert (1 <= letter_weight c).
      { unfold letter_weight. rewrite Hc. destruct ([c] === lit "X"); lia. }
      pose proof (first_letter_w_idx toUpperCase word mbl s0).
      destruct (first_letter_emits word mbl s0 Hr0) as [Hn0 | [Hadv Hlen]];
        (split; [lia|]).
      * rewrite Hn0. apply weight_nonneg.
      * pose proof (weight_firstn_mono (Z.to_nat (w_idx s0 + 1))
                      (Z.to_nat (w_idx (first_letter toUpperCase word mbl s0))) word).
        lia.
Qed.

(** The code has at most one symbol for each letter of the upper-cased
    text and one more for each X among them, so at most twice as many
    symbols as the text has letters. *)
Theorem metaphone_letters_bound (text : jsstring) (maxPhonemes : Z) :
  len (metaphone toUpperCase text maxPhonemes) <= weight (toUpperCase text)
  /\ weight (toUpperCase text) <= 2 * normalized_length toUpperCase text.
Proof.
  split.
  - unfold metaphone.
    destruct (metaphone_fuel toUpperCase (length text) text maxPhonemes) as [r|] eqn:E.
    + now apply metaphone_fuel_weight in E.
    + apply weight_nonneg.
  - unfold normalized_length.
    induction (toUpperCase text) as [|c s IH]; cbn [weight filter]; [now vm_compute|].
    pose proof (letter_weight_bounds c) as Hb.
    destruct (isAZ c); unfold len in *; cbn [length] in *; lia.
Qed.

End MetaphoneWeight.

(** "BX1": two letters, one of them an X, and three symbols. *)
Lemma metaphone_letters_bound_witness :
  weight (toUpperCase_ascii (lit "BX1")) = 3
  /\ len (Metaphone.metaphone toUpperCase_ascii (lit "BX1") 0)
     <= weight (toUpperCase_ascii (lit "BX1")).
Proof.
  split; [reflexivity|].
  exact (proj1 (metaphone_letters_bound toUpperCase_ascii toUpperCase_ascii_stable
                  (lit "BX1") 0)).
Defined.

(** ** Soundex: which letters matter *)

Section SoundexLetters.

Import Soundex.

Variable toUpperCase : jsstring -> jsstring.

Lemma get_digit_or_none (c : jschar) :
  (exists d, get soundexTable [c] = Some (Str d))
  \/ value_truthy (get soundexTable [c]) = false.
Proof.
  destruct (get soundexTable [c]) as [[|d]|] eqn:E; eauto.
Qed.

Lemma scan_same_group (c c' : jschar) (letters : list jschar) (code : jsstring)
    (last : value) :
  get soundexTable [c] = get soundexTable [c'] ->
  scan (c :: letters) code last = scan (c' :: letters) code last.
Proof.
  intros H. cbn [scan]. unfold encode_letter. cbn [to_string]. now rewrite H.
Qed.

Lemma scan_drop_no_digit (v : jschar) (letters : list jschar) (code : jsstring)
    (last : value) :
  value_truthy (get soundexTable [v]) = false ->
  scan (v :: letters) code last = scan letters code last.
Proof.
  intros H. apply (scan_skip_no_digit [v] letters). now constructor.
Qed.

Lemma scan_double (c : jschar) (letters : list jschar) (code : jsstring) (last : value) :
  scan (c :: c :: letters) code last = scan (c :: letters) code last.
Proof.
  destruct (get_digit_or_none c) as [[d Hd] | Hn].
  - apply (scan_collapse c c d [] letters code last Hd Hd). constructor.
  - now rewrite !(scan_drop_no_digit c) by exact Hn.
Qed.

Lemma soundex_clean_pad (first : jschar) (rest : list jschar) :
  soundex_clean (first :: rest)
  = fst (scan rest [first] (seed [first]))
    ++ repeat 48 (4 - length (fst (scan rest [first] (seed [first])))).
Proof. exact (proj2 (soundex_clean_scan first rest)). Qed.

(** Once the code has four characters the letters that follow are not
    looked at: a text that continues another one whose code is full before
    the padding has the same code. *)
Theorem soundex_full_code (text text' : jsstring) (more : list jschar) :
  normalize toUpperCase text' = normalize toUpperCase text ++ more ->
  len (soundex_unpadded (normalize toUpperCase text)) = 4 ->
  soundex toUpperCase text' = soundex toUpperCase text.
Proof.
  unfold soundex. intros -> Hfull.
  destruct (normalize toUpperCase text) as [|first rest]; [discriminate|].
  rewrite (proj1 (soundex_clean_scan first rest)) in Hfull.
  cbn [app]. rewrite !soundex_clean_pad, scan_app.
  rewrite scan_full; [reflexivity|].
  apply Z.ltb_ge. lia.
Qed.

(** After the first letter, a letter can be replaced by any letter with the
    same entry in the table without changing the code. *)
Theorem soundex_same_group (text text' : jsstring) (first : jschar)
    (pre : list jschar) (c c' : jschar) (rest : list jschar) :
  normalize toUpperCase text = first :: pre ++ c :: rest ->
  normalize toUpperCase text' = first :: pre ++ c' :: rest ->
  get soundexTable [c] = get soundexTable [c'] ->
  soundex toUpperCase text = soundex toUpperCase text'.
Proof.
  unfold soundex. intros -> -> H.
  rewrite !soundex_clean_pad, !(scan_app pre).
  now rewrite (scan_same_group c c').
Qed.

(** After the first letter, a letter without a digit (A, E, I, O, U, H, W,
    Y) can be left out without changing the code. *)
Theorem soundex_no_digit_dropped (text text' : jsstring) (first : jschar)
    (pre : list jschar) (v : jschar) (rest : list jschar) :
  normalize toUpperCase text = first :: pre ++ v :: rest ->
  normalize toUpperCase text' = first :: pre ++ rest ->
  value_truthy (get soundexTable [v]) = false ->
  soundex toUpperCase text = soundex toUpperCase text'.
Proof.
  unfold soundex. intros -> -> H.
  rewrite !soundex_clean_pad, !(scan_app pre).
  now rewrite scan_drop_no_digit.
Qed.

(** A doubled letter counts once, in the first place or later. *)
Theorem soundex_double_letter (text text' : jsstring) (pre : list jschar)
    (c : jschar) (rest : list jschar) :
  normalize toUpperCase text = pre ++ c :: c :: rest ->
  normalize toUpperCase text' = pre ++ c :: rest ->
  soundex toUpperCase text = soundex toUpperCase text'.
Proof.
  unfold soundex. intros -> ->. destruct pre as [|p pre]; cbn [app].
  - rewrite !soundex_clean_pad.
    destruct (get_digit_or_none c) as [[d Hd] | Hn].
    + rewrite (seed_digit c d Hd). now rewrite scan_skip_same.
    + now rewrite scan_drop_no_digit.
  - rewrite !soundex_clean_pad, !(scan_app pre). now rewrite scan_double.
Qed.

(** A text whose letters after the first have no digit, a single letter
    among them, has the code of that first letter followed by 000. *)
Theorem soundex_no_digits (text : jsstring) (first : jschar) (rest : list jschar) :
  normalize toUpperCase text = first :: rest ->
  Forall (fun v => value_truthy (get soundexTable [v]) = false) rest ->
  soundex toUpperCase text = first :: lit "000".
Proof.
  unfold soundex. intros -> H. rewrite soundex_clean_pad.
  rewrite <- (app_nil_r rest), scan_skip_no_digit by exact H.
  reflexivity.
Qed.

End SoundexLetters.

(** "Washington" has the full code W252 after "Washing". *)
Lemma soundex_full_code_witness :
  Soundex.soundex_unpadded (Soundex.normalize toUpperCase_ascii (lit "Washing"))
  = lit "W252"
  /\ Soundex.soundex toUpperCase_ascii (lit "Washington")
     = Soundex.soundex toUpperCase_ascii (lit "Washing").
Proof.
  split; [reflexivity|].
  apply (soundex_full_code toUpperCase_ascii (lit "Washing") (lit "Washington")
           (lit "TON")); reflexivity.
Defined.

Lemma soundex_same_group_witness :
  Soundex.soundex toUpperCase_ascii (lit "Robert")
  = Soundex.soundex toUpperCase_ascii (lit "Ropert").
Proof.
  apply (soundex_same_group toUpperCase_ascii (lit "Robert") (lit "Ropert")
           82 (lit "O") 66 80 (lit "ERT")); reflexivity.
Defined.

Lemma soundex_no_digit_dropped_witness :
  Soundex.soundex toUpperCase_ascii (lit "Bahamas")
  = Soundex.soundex toUpperCase_ascii (lit "Baamas").
Proof.
  apply (soundex_no_digit_dropped toUpperCase_ascii (lit "Bahamas") (lit "Baamas")
           66 (lit "A") 72 (lit "AMAS")); reflexivity.
Defined.

Lemma soundex_double_letter_witness :
  Soundex.soundex toUpperCase_ascii (lit "Lloyd")
  = Soundex.soundex toUpperCase_ascii (lit "Loyd").
Proof.
  apply (soundex_double_letter toUpperCase_ascii (lit "Lloyd") (lit "Loyd")
           [] 76 (lit "OYD")); reflexivity.
Defined.

Lemma soundex_no_digits_witness :
  Soundex.soundex toUpperCase_ascii (lit "a") = lit "A000"
  /\ Soundex.soundex toUpperCase_ascii (lit "Yahoo!") = lit "Y000".
Proof.
  split.
  - apply (soundex_no_digits toUpperCase_ascii (lit "a") 65 []);
      [reflexivity | constructor].
  - apply (soundex_no_digits toUpperCase_ascii (lit "Yahoo!") 89 (lit "AHOO"));
      [reflexivity | repeat constructor].
Defined.

(** * The cookie reader *)

Section CookieRead.

Import CookieStorage.

Lemma blank_body_cons (c : jschar) (s : jsstring) : blank_body (c :: s) = s.
Proof.
  unfold blank_body, substring, len. cbn [length].
  replace (Z.min (Z.max 1 0) (Z.of_nat (S (length s)))) with 1 by lia.
  replace (Z.min (Z.max (Z.of_nat (S (length s))) 0) (Z.of_nat (S (length s))))
    with (Z.of_nat (S (length s))) by lia.
  replace (Z.min 1 (Z.of_nat (S (length s)))) with 1 by lia.
  replace (Z.max 1 (Z.of_nat (S (length s)))) with (Z.of_nat (S (length s))) by lia.
  replace (Z.to_nat (Z.of_nat (S (length s)) - 1)) with (length s) by lia.
  change (Z.to_nat 1) with 1%nat. cbn [skipn]. apply firstn_all.
Qed.

Lemma blank_cond_cons (c : jschar) (s : jsstring) : blank_cond (c :: s) = (c =? 32).
Proof.
  unfold blank_cond, charAt_, charAt. cbn. unfold str_eqb. now rewrite andb_true_r.
Qed.

(** The loop of lines 66-68 drops the leading blanks. *)
Lemma blanks_dropped (s : jsstring) :
  forall fuel, (length s <= fuel)%nat ->
  while_ fuel blank_cond blank_body s = Some (drop_blanks s).
Proof.
  induction s as [|c s IH]; intros fuel Hf.
  - now rewrite while_not_entered.
  - destruct fuel as [|fuel]; [simpl in Hf; lia|].
    cbn [while_ drop_blanks]. rewrite blank_cond_cons.
    destruct (c =? 32); [|reflexivity].
    rewrite blank_body_cons. apply IH. simpl in Hf. lia.
Qed.

Lemma indexOf_from_range (name : jsstring) (s : jsstring) :
  forall pos, indexOf_from pos s name = -1 \/ pos <= indexOf_from pos s name.
Proof.
  induction s as [|c s IH]; intros pos; cbn [indexOf_from];
    destruct (starts_with name _); try (right; lia); [now left|].
  destruct (IH (pos + 1)) as [-> | H]; [now left | right; lia].
Qed.

(** [s.indexOf(name) === 0] says that [s] begins with [name]. *)
Lemma indexOf_zero (s name : jsstring) :
  (indexOf s name =? 0) = starts_with name s.
Proof.
  unfold indexOf. destruct s as [|c s]; cbn [indexOf_from];
    destruct (starts_with name _); try reflexivity.
  destruct (indexOf_from_range name s (0 + 1)) as [-> | H]; [reflexivity|].
  apply Z.eqb_neq. lia.
Qed.

Lemma starts_with_split (name s : jsstring) :
  starts_with name s = true <-> exists rest, s = name ++ rest.
Proof.
  revert s; induction name as [|x name IH]; intros s; cbn [starts_with].
  - split; [eexists; reflexivity | reflexivity].
  - destruct s as [|y s].
    + split; [discriminate | intros [rest H]; discriminate].
    + rewrite andb_true_iff, Z.eqb_eq, IH. split.
      * intros [-> [rest ->]]. now exists rest.
      * intros [rest H]. injection H as -> ->. eauto.
Qed.

Lemma substring_after (name rest : jsstring) :
  substring (name ++ rest) (len name) (len (name ++ rest)) = rest.
Proof.
  unfold substring. rewrite len_app.
  pose proof (len_nonneg name). pose proof (len_nonneg rest).
  replace (Z.min (Z.max (len name) 0) (len name + len rest)) with (len name) by lia.
  replace (Z.min (Z.max (len name + len rest) 0) (len name + len rest))
    with (len name + len rest) by lia.
  replace (Z.min (len name) (len name + len rest)) with (len name) by lia.
  replace (Z.max (len name) (len name + len rest)) with (len name + len rest) by lia.
  unfold len. rewrite Nat2Z.id.
  replace (Z.to_nat (Z.of_nat (length name) + Z.of_nat (length rest) - Z.of_nat (length name)))
    with (length rest) by lia.
  rewrite skipn_app, skipn_all, Nat.sub_diag. cbn [app skipn]. apply firstn_all.
Qed.

(** One turn of the loop of lines 63-73. *)
Lemma search_cons (name singleCookie : jsstring) (others : list jsstring) :
  search name (singleCookie :: others)
  = if starts_with name (drop_blanks singleCookie)
    then Some (skipn (length name) (drop_blanks singleCookie))
    else search name others.
Proof.
  cbn [search]. rewrite blanks_dropped by apply le_n. rewrite indexOf_zero.
  destruct (starts_with name (drop_blanks singleCookie)) eqn:E; [|reflexivity].
  apply starts_with_split in E as [rest ->].
  rewrite substring_after, skipn_app, skipn_all, Nat.sub_diag. reflexivity.
Qed.

Lemma starts_with_self (name rest : jsstring) : starts_with name (name ++ rest) = true.
Proof. apply starts_with_split. now exists rest. Qed.

Lemma search_none (name : jsstring) (pieces : list jsstring) :
  search name pieces = None
  <-> Forall (fun p => starts_with name (drop_blanks p) = false) pieces.
Proof.
  induction pieces as [|piece pieces IH]; [split; [constructor | reflexivity]|].
  rewrite search_cons. destruct (starts_with name (drop_blanks piece)) eqn:E.
  - split; [discriminate|]. intros H. inversion H; subst. congruence.
  - rewrite IH. split; [now constructor | intros H; now inversion H].
Qed.

(** What [getItem] returns is read off [document.cookie].  For the empty
    key it returns [false] (line 56).  A returned value belongs to a
    non-empty key and is what follows [key=] in the first of the pieces
    between semicolons that begins with it, leading blanks apart.  [false]
    is returned exactly for the empty key and when no piece begins with
    [key=]. *)
Theorem getItem_reads (cookie key : jsstring) :
  getItem cookie [] = None
  /\ (forall value,
        getItem cookie key = Some value ->
        key <> []
        /\ exists before piece after,
             split 59 cookie = before ++ piece :: after
             /\ drop_blanks piece = key ++ lit "=" ++ value
             /\ Forall (fun p => starts_with (key ++ lit "=") (drop_blanks p) = false)
                  before)
  /\ (getItem cookie key = None
      <-> key = []
          \/ Forall (fun p => starts_with (key ++ lit "=") (drop_blanks p) = false)
                (split 59 cookie)).
Proof.
  split; [reflexivity|]. split.
  - unfold getItem. destruct key as [|k key]; [discriminate|].
    remember ((k :: key) ++ lit "=") as name eqn:Hname.
    intros value Hv. split; [discriminate|].
    replace ((k :: key) ++ lit "=" ++ value) with (name ++ value)
      by (subst name; now rewrite <- app_assoc).
    revert Hv. induction (split 59 cookie) as [|piece pieces IH]; [discriminate|].
    rewrite search_cons. destruct (starts_with name (drop_blanks piece)) eqn:E.
    + intros [= <-]. exists [], piece, pieces. split; [reflexivity|].
      split; [|constructor].
      apply starts_with_split in E as [rest E]. rewrite E.
      now rewrite skipn_app, skipn_all, Nat.sub_diag.
    + intros Hv. destruct (IH Hv) as (before & p & after & -> & Hp & Hb).
      exists (piece :: before), p, after. split; [reflexivity|].
      split; [exact Hp|]. now constructor.
  - unfold getItem. destruct key as [|k key].
    + split; [now left | reflexivity].
    + rewrite search_none. split; [now right|].
      intros [H | H]; [discriminate | exact H].
Qed.

(** The cookie string "  k=v;;x": the key "k" is found behind the blanks,
    the empty key is not looked for. *)
Lemma getItem_reads_witness :
  getItem (lit "  k=v;;x") (lit "k") = Some (lit "v")
  /\ lit "k" <> []
  /\ getItem (lit "  k=v;;x") (lit "") = None.
Proof.
  split; [reflexivity|]. split.
  - exact (proj1 (proj1 (proj2 (getItem_reads (lit "  k=v;;x") (lit "k")))
                    (lit "v") eq_refl)).
  - exact (proj1 (getItem_reads (lit "  k=v;;x") (lit "k"))).
Defined.

End CookieRead.

Section CookieRoundTrip.

Import CookieStorage.

Lemma split_nonempty (sep : jschar) (s : jsstring) : split sep s <> [].
Proof.
  induction s as [|c s IH]; cbn [split]; [discriminate|].
  destruct (c =? sep); [discriminate|].
  destruct (split sep s); [contradiction | discriminate].
Qed.

Lemma split_piece (sep : jschar) (piece : jsstring) :
  ~ In sep piece ->
  split sep piece = [piece]
  /\ forall rest, split sep (piece ++ sep :: rest) = piece :: split sep rest.
Proof.
  induction piece as [|c piece IH]; intros Hn.
  - split; [reflexivity|]. intros rest. cbn [app split]. now rewrite Z.eqb_refl.
  - assert (Hc : (c =? sep) = false) by (apply Z.eqb_neq; intros ->; apply Hn; now left).
    destruct IH as [IH1 IH2]; [intros H; apply Hn; now right|].
    split; [|intros rest]; cbn [app split]; rewrite Hc; [now rewrite IH1 | now rewrite IH2].
Qed.

Lemma pair_text_no_semicolon (p : jsstring * jsstring) :
  cookie_ok p -> ~ In 59 (pair_text p).
Proof.
  intros (Hk & _ & _ & Hv) H. unfold pair_text in H.
  apply in_app_or in H as [H | H]; [auto|].
  apply in_app_or in H as [H | H]; [|auto].
  simpl in H. destruct H as [H | []]. discriminate.
Qed.

Lemma pair_text_no_blank (p : jsstring * jsstring) :
  cookie_ok p -> drop_blanks (pair_text p) = pair_text p.
Proof.
  intros (_ & _ & Hb & _). destruct p as [[|c k] v]; unfold pair_text; cbn in *.
  - reflexivity.
  - destruct (c =? 32) eqn:E; [|reflexivity].
    apply Z.eqb_eq in E. subst c. now contradiction Hb.
Qed.

(** The pieces of the cookie string: the first cookie, then each other one
    after a blank. *)
Lemma split_cookie_string (p : jsstring * jsstring) (pairs : list (jsstring * jsstring)) :
  Forall cookie_ok (p :: pairs) ->
  split 59 (cookie_string (p :: pairs))
  = pair_text p :: map (fun q => 32 :: pair_text q) pairs.
Proof.
  revert p; induction pairs as [|q pairs IH]; intros [k v] H;
    inversion H as [|? ? Hp Hps]; subst.
  - cbn [cookie_string map].
    exact (proj1 (split_piece 59 (pair_text (k, v)) (pair_text_no_semicolon _ Hp))).
  - change (cookie_string ((k, v) :: q :: pairs))
      with (k ++ lit "=" ++ v ++ 59 :: 32 :: cookie_string (q :: pairs)).
    replace (k ++ lit "=" ++ v ++ 59 :: 32 :: cookie_string (q :: pairs))
      with (pair_text (k, v) ++ 59 :: 32 :: cookie_string (q :: pairs))
      by (unfold pair_text; cbn [fst snd]; now rewrite <- !app_assoc).
    rewrite (proj2 (split_piece 59 _ (pair_text_no_semicolon _ Hp))).
    f_equal. cbn [split]. change (32 =? 59) with false. cbv iota.
    rewrite (IH q Hps). reflexivity.
Qed.

Lemma starts_with_name (key k v : jsstring) :
  ~ In 61 key -> ~ In 61 k ->
  starts_with (key ++ lit "=") (k ++ lit "=" ++ v) = (k === key).
Proof.
  change (lit "=") with [61].
  revert k; induction key as [|x key IH]; intros [|y k] Hkey Hk; cbn [app starts_with].
  - reflexivity.
  - change (y :: k === []) with false.
    replace (61 =? y) with false; [reflexivity|].
    symmetry. apply Z.eqb_neq. intros <-. apply Hk. now left.
  - change ([] === x :: key) with false.
    replace (x =? 61) with false; [reflexivity|].
    symmetry. apply Z.eqb_neq. intros ->. apply Hkey. now left.
  - change (y :: k === x :: key) with ((y =? x) && (k === key)).
    rewrite (Z.eqb_sym x y). f_equal.
    apply IH; intros H; [apply Hkey | apply Hk]; now right.
Qed.

Lemma search_pair (key : jsstring) (blank : bool) (p : jsstring * jsstring)
    (others : list jsstring) :
  ~ In 61 key -> cookie_ok p ->
  search (key ++ lit "=") ((if blank then 32 :: pair_text p else pair_text p) :: others)
  = if fst p === key then Some (snd p) else search (key ++ lit "=") others.
Proof.
  intros Hkey Hp. rewrite search_cons.
  destruct blank;
    [cbn [drop_blanks]; change (32 =? 32) with true; cbv iota|];
    rewrite (pair_text_no_blank p Hp); unfold pair_text at 1.
  all: rewrite starts_with_name by (exact Hkey || apply Hp).
  all: destruct (fst p === key) eqn:Ek; [|reflexivity].
  all: apply str_eqb_eq in Ek; unfold pair_text; rewrite Ek, app_assoc.
  all: now rewrite skipn_app, skipn_all, Nat.sub_diag.
Qed.

(** Reading back: when [document.cookie] lists the cookies [pairs],
    [getItem(key)] is the value of the first cookie named [key], and [false]
    when there is none. *)
Theorem getItem_cookie_string (pairs : list (jsstring * jsstring)) (key : jsstring) :
  Forall cookie_ok pairs -> key <> [] -> ~ In 61 key ->
  getItem (cookie_string pairs) key = first_value key pairs.
Proof.
  intros Hok Hne Hkey. unfold getItem. destruct key as [|x key]; [contradiction|].
  set (k := x :: key) in *.
  destruct pairs as [|p pairs].
  - cbn [cookie_string split first_value]. rewrite search_cons. cbn [drop_blanks].
    reflexivity.
  - rewrite (split_cookie_string p pairs Hok).
    inversion Hok as [|? ? Hp Hps]; subst.
    rewrite (search_pair k false p _ Hkey Hp). destruct p as [pk pv].
    cbn [first_value fst snd]. destruct (pk === k); [reflexivity|].
    clear Hp Hok. induction pairs as [|q pairs IH]; [reflexivity|].
    inversion Hps as [|? ? Hq Hqs]; subst. cbn [map].
    rewrite (search_pair k true q _ Hkey Hq). destruct q as [qk qv].
    cbn [first_value fst snd]. destruct (qk === k); [reflexivity|].
    now apply IH.
Qed.

End CookieRoundTrip.

(** Two cookies named "a": the first one is read; "c" is not there. *)
Lemma getItem_cookie_string_witness :
  cookie_string [(lit "a", lit "1"); (lit "bc", lit "x=y z"); (lit "a", lit "2")]
  = lit "a=1; bc=x=y z; a=2"
  /\ CookieStorage.getItem (lit "a=1; bc=x=y z; a=2") (lit "a") = Some (lit "1")
  /\ CookieStorage.getItem
       (cookie_string [(lit "a", lit "1"); (lit "bc", lit "x=y z"); (lit "a", lit "2")])
       (lit "c")
     = first_value (lit "c")
         [(lit "a", lit "1"); (lit "bc", lit "x=y z"); (lit "a", lit "2")].
Proof.
  split; [reflexivity|]. split; [reflexivity|].
  apply getItem_cookie_string.
  - repeat constructor; cbn; intuition discriminate.
  - discriminate.
  - cbn. intuition discriminate.
Defined.

(** * The storage in memory *)

Section MemoryStorageFacts.

Import MemoryStorage.

Lemma own_assign (o : storage) (key value key' : jsstring) :
  own (assign o key value) key' = if key === key' then Some value else own o key'.
Proof.
  induction o as [|[k v] o IH]; cbn [assign own].
  - reflexivity.
  - destruct (k === key) eqn:E; cbn [own].
    + apply str_eqb_eq in E. subst k. now destruct (key === key').
    + rewrite IH. destruct (k === key') eqn:E'; [|reflexivity].
      apply str_eqb_eq in E'. subst k.
      destruct (key === key') eqn:E2; [|reflexivity].
      apply str_eqb_eq in E2. subst key. now rewrite str_eqb_refl in E.
Qed.

Lemma own_delete (o : storage) (key key' : jsstring) :
  own (delete o key) key' = if key === key' then None else own o key'.
Proof.
  induction o as [|[k v] o IH]; cbn [delete own].
  - now destruct (key === key').
  - destruct (k === key) eqn:E; cbn [own].
    + apply str_eqb_eq in E. subst k. rewrite IH. now destruct (key === key').
    + rewrite IH. destruct (k === key') eqn:E'; [|reflexivity].
      apply str_eqb_eq in E'. subst k.
      destruct (key === key') eqn:E2; [|reflexivity].
      apply str_eqb_eq in E2. subst key. now rewrite str_eqb_refl in E.
Qed.

(** What [getItem] gives after each call, from what it gave before: the
    value set last under the key, unless the key was removed or the storage
    cleared since; [null] on a new storage, for every key.  A value set
    under "__proto__" is not kept. *)
Theorem getItem_after_call (o : storage) (key : jsstring) :
  getItem key new = None
  /\ (forall k v,
        getItem key (snd (setItem k v o))
        = if (k === key) && negb (k === lit "__proto__") then Some v else getItem key o)
  /\ (forall k v, fst (setItem k v o) = v)
  /\ (forall k,
        getItem key (snd (removeItem k o)) = if k === key then None else getItem key o)
  /\ (forall k, fst (removeItem k o) = true)
  /\ getItem key (clear o) = None.
Proof.
  unfold getItem, setItem, removeItem, clear. cbn [fst snd].
  repeat split; try reflexivity.
  - intros k v. destruct (k === lit "__proto__"); cbn [negb].
    + now rewrite andb_false_r.
    + now rewrite own_assign, andb_true_r.
  - intros k. apply own_delete.
Qed.

Lemma perform_keeps_proto (o : storage) (c : call) :
  own o (lit "__proto__") = None -> own (perform o c) (lit "__proto__") = None.
Proof.
  intros Ho. destruct c as [k v | k |]; cbn [perform setItem removeItem clear snd].
  - destruct (k === lit "__proto__") eqn:E; [exact Ho|].
    now rewrite own_assign, E.
  - rewrite own_delete. now destruct (k === lit "__proto__").
  - reflexivity.
Qed.

(** Whatever is called on a new storage, [getItem("__proto__")] is [null]
    afterwards: a value set under that key is not stored. *)
Theorem proto_never_stored (calls : list call) :
  getItem (lit "__proto__") (after calls) = None.
Proof.
  unfold getItem, after.
  assert (H : forall o, own o (lit "__proto__") = None ->
                        own (fold_left perform calls o) (lit "__proto__") = None).
  { induction calls as [|c calls IH]; intros o Ho; [exact Ho|].
    cbn [fold_left]. apply IH. now apply perform_keeps_proto. }
  now apply H.
Qed.

End MemoryStorageFacts.

(** * Upper and lower case *)

Section IgnoreCase.

Variable toUpperCase : jsstring -> jsstring.

Hypothesis toUpperCase_on_ascii :
  forall s, forallb is_ascii s = true -> toUpperCase s = toUpperCase_ascii s.

(** Two ASCII texts that differ only in the case of their letters have the
    same Metaphone code, for every [maxPhonemes], and the same Soundex
    code. *)
Theorem encoders_ignore_case (text text' : jsstring) (maxPhonemes : Z) :
  forallb is_ascii text = true -> forallb is_ascii text' = true ->
  toUpperCase_ascii text = toUpperCase_ascii text' ->
  Metaphone.metaphone toUpperCase text maxPhonemes
  = Metaphone.metaphone toUpperCase text' maxPhonemes
  /\ Soundex.soundex toUpperCase text = Soundex.soundex toUpperCase text'.
Proof.
  intros Ha Ha' Hup. split.
  - rewrite !(metaphone_on_ascii toUpperCase toUpperCase_on_ascii) by assumption.
    assert (Hl : length text = length text').
    { pose proof (f_equal (@length _) Hup) as H.
      unfold toUpperCase_ascii in H. now rewrite !length_map in H. }
    unfold Metaphone.metaphone, Metaphone.metaphone_fuel, len.
    now rewrite Hup, Hl.
  - rewrite !(soundex_on_ascii toUpperCase toUpperCase_on_ascii) by assumption.
    unfold Soundex.soundex, Soundex.normalize. now rewrite Hup.
Qed.

End IgnoreCase.

Lemma encoders_ignore_case_witness :
  Metaphone.metaphone toUpperCase_ascii (lit "McDonald") 0
  = Metaphone.metaphone toUpperCase_ascii (lit "MCDONALD") 0
  /\ Soundex.soundex toUpperCase_ascii (lit "McDonald")
     = Soundex.soundex toUpperCase_ascii (lit "MCDONALD").
Proof.
  apply (encoders_ignore_case toUpperCase_ascii (fun s _ => eq_refl)
           (lit "McDonald") (lit "MCDONALD") 0); reflexivity.
Defined.
